(** * Laptop catalogue (app/main.py): a shallow embedding and its properties

    The program is a FastAPI application over one JSON file.  The
    embedding follows app/main.py function by function:

    - Python text is a list of code points.  The model keeps the code
      points below 256 (the [ascii] type, read as Latin-1), which is where
      [str.strip], [str.lower] and the two regular expressions of the
      program are written out in full.
    - A value read by [json.load] is a [json] tree.  [str] of a float,
      a list or a dict is Python's [repr], taken as a parameter
      ([repr_other]).
    - An exception is a [Raise] result.
    - The record dictionaries built by [load_laptops] live in a store
      ([heap]); the cache and every list handed to a route hold
      references into it, so that two lists naming the same record
      share it. *)

From Stdlib Require Import DecimalFacts.
From Stdlib Require Import ZArith NArith List String Ascii Bool Lia.
From Stdlib Require Import Sorted Permutation SpecFloat DecimalString DecimalNat DecimalPos.
Import ListNotations.

Set Implicit Arguments.

Open Scope string_scope.
Open Scope list_scope.

(** * Part I: the program *)

(** ** Python text *)

Module Py.

(** A text is a sequence of code points below 256 (Latin-1). *)
Definition str := list ascii.

(** Literals are written as Rocq strings and read as lists of code points. *)
Coercion list_ascii_of_string : string >-> list.

Definition code (c : ascii) : N := N_of_ascii c.

Definition between (lo hi : N) (c : ascii) : bool :=
  (lo <=? code c)%N && (code c <=? hi)%N.

(** [str.isspace] on one code point below 256: TAB..CR, FS..US, SPACE,
    NEL and NBSP. *)
Definition isspace (c : ascii) : bool :=
  between 9 13 c || between 28 32 c || (code c =? 133)%N || (code c =? 160)%N.

(** [0-9], [a-z] and [.] as the regular expressions of the program read
    them (ASCII only). *)
Definition is_digit (c : ascii) : bool := between 48 57 c.
Definition is_lower_az (c : ascii) : bool := between 97 122 c.
Definition is_dot (c : ascii) : bool := (code c =? 46)%N.
Definition is_comma (c : ascii) : bool := (code c =? 44)%N.
Definition is_hyphen (c : ascii) : bool := (code c =? 45)%N.

(** [str.lower] on one code point below 256: A..Z and the Latin-1 capitals
    (all of 0xC0..0xDE but the multiplication sign) move up by 32. *)
Definition is_upper (c : ascii) : bool :=
  between 65 90 c || (between 192 222 c && negb (code c =? 215)%N).

Definition lower_char (c : ascii) : ascii :=
  if is_upper c then ascii_of_N (code c + 32) else c.

(** [s.lower()].  On Latin-1 text it is pointwise; beyond Latin-1
    [str.lower] is not (a capital sigma at the end of a word gets the
    final form, U+0130 gets two code points), which is why the
    statements about the query and the slug are phrased with the
    lower-case forms themselves and not letter by letter. *)
Definition lower (s : str) : str := map lower_char s.

(** [s.lstrip()], [s.rstrip()] and [s.strip()], for a set of characters
    given as a predicate. *)
Fixpoint lstrip_by (p : ascii -> bool) (s : str) : str :=
  match s with
  | [] => []
  | c :: r => if p c then lstrip_by p r else s
  end.

Definition rstrip_by (p : ascii -> bool) (s : str) : str :=
  rev (lstrip_by p (rev s)).

Definition strip_by (p : ascii -> bool) (s : str) : str :=
  rstrip_by p (lstrip_by p s).

Definition strip (s : str) : str := strip_by isspace s.

(** [s.startswith(p)]. *)
Fixpoint startswith (p s : str) : bool :=
  match p, s with
  | [], _ => true
  | _ :: _, [] => false
  | a :: p', b :: s' => Ascii.eqb a b && startswith p' s'
  end.

(** [needle in hay] on two texts. *)
Fixpoint contains (needle hay : str) : bool :=
  startswith needle hay ||
  match hay with
  | [] => false
  | _ :: r => contains needle r
  end.

(** [str(n)] for a natural number and for an integer. *)
Definition str_of_nat (n : nat) : str :=
  list_ascii_of_string (NilEmpty.string_of_uint (Nat.to_uint n)).

Definition str_of_Z (z : Z) : str :=
  list_ascii_of_string (NilZero.string_of_int (Z.to_int z)).

Definition is_empty (s : str) : bool :=
  match s with [] => true | _ => false end.

End Py.

Import Py.

(** ** Results and exceptions *)

(** The exceptions the program can raise, one constructor per raise site
    or failing built-in.  In Python [JSONDecodeError], the two
    [ValueError_*] and [MalformedData] are all instances of [ValueError];
    they are kept apart here by where they come from. *)
Inductive exn :=
| MissingDataFile                 (* FileNotFoundError, load_laptops *)
| MalformedData                   (* ValueError "laptops.json must be a LIST of objects." *)
| JSONDecodeError                 (* json.load on a file that is not JSON *)
| ValueError_float (s : str)      (* float(s): could not convert string to float *)
| ValueError_nan                  (* int(nan) *)
| OverflowError                   (* int(inf) *)
| NotFound.                       (* HTTPException 404, product_page *)

Inductive result (A : Type) :=
| Ok (a : A)
| Raise (e : exn).

Arguments Raise {A} e.

Definition bind {A B} (r : result A) (k : A -> result B) : result B :=
  match r with
  | Ok a => k a
  | Raise e => Raise e
  end.

Notation "x <- c1 ;; c2" := (bind c1 (fun x => c2))
  (at level 61, c1 at next level, right associativity).

(** ** Python floats *)

(** A Python float is an IEEE 754 binary64 value. *)
Definition float := spec_float.

(** [int(f)]: truncation towards zero; NaN and the infinities raise. *)
Definition int_of_float (f : float) : result Z :=
  match f with
  | S754_zero _ => Ok 0%Z
  | S754_nan => Raise ValueError_nan
  | S754_infinity _ => Raise OverflowError
  | S754_finite s m e =>
      let mag := (if 0 <=? e then Z.pos m * 2 ^ e else Z.pos m / 2 ^ (- e))%Z in
      Ok (if s then (- mag)%Z else mag)
  end.

(** The binary64 value nearest to [n / d] (ties to even), for [0 <= n]
    and [0 < d]: the quotient is taken with enough bits and rounded once. *)
Definition binary64_of_ratio (n d : Z) : float :=
  let '(q, e, l) := SFdiv_core_binary 53 1024 n 0 d 0 in
  binary_round_aux 53 1024 false q e l.

(** The leading digits of a text and what follows them. *)
Fixpoint span_digits (s : str) : str * str :=
  match s with
  | [] => ([], [])
  | c :: r =>
      if is_digit c then let (a, b) := span_digits r in (c :: a, b)
      else ([], s)
  end.

Definition digit_val (c : ascii) : Z := (Z.of_N (code c) - 48)%Z.

Definition digits_val (s : str) : Z :=
  fold_left (fun acc c => (10 * acc + digit_val c)%Z) s 0%Z.

(** The decimal number written by a text of digits and points, as a
    numerator and a number of fractional digits: digits, then possibly
    one point and more digits, with a digit somewhere.  Anything else is
    not a number. *)
Definition decimal_of_text (s : str) : option (Z * Z) :=
  let (ip, rest) := span_digits s in
  match rest with
  | [] => if is_empty ip then None else Some (digits_val ip, 0%Z)
  | c :: fp =>
      if is_dot c && forallb is_digit fp && negb (is_empty ip && is_empty fp)
      then Some (digits_val (ip ++ fp), Z.of_nat (List.length fp))
      else None
  end.

(** [float(s)] for a text [s] of digits and points, which is all
    [parse_price] passes to it: the nearest binary64 value, an infinity
    when the number is too large, and ValueError when [s] is not a
    number. *)
Definition float_of_text (s : str) : result float :=
  match decimal_of_text s with
  | Some (n, k) => Ok (binary64_of_ratio n (10 ^ k))
  | None => Raise (ValueError_float s)
  end.

(** ** Values read by json.load *)

#[local] Unset Elimination Schemes.
Inductive json :=
| JNull                               (* None *)
| JBool (b : bool)
| JInt (z : Z)
| JFloat (f : float)                  (* NaN and the infinities included *)
| JStr (s : str)
| JList (l : list json)
| JDict (kv : list (str * json)).
#[local] Set Elimination Schemes.

Definition str_eqb (a b : str) : bool :=
  if list_eq_dec ascii_dec a b then true else false.

(** [row.get(key, default)]. *)
Fixpoint dict_get (kv : list (str * json)) (key : str) (default : json) : json :=
  match kv with
  | [] => default
  | (k, v) :: rest => if str_eqb k key then v else dict_get rest key default
  end.

Definition is_None (v : json) : bool :=
  match v with JNull => true | _ => false end.

(** ** The helpers of app/main.py *)

(** [re.sub(r"[^a-z0-9]+", "-", t)]: each maximal run of characters
    outside a-z and 0-9 becomes one hyphen.  [in_run] tells that the
    run being read has already been replaced. *)
Definition is_slug_char (c : ascii) : bool := is_lower_az c || is_digit c.

Fixpoint sub_runs (in_run : bool) (t : str) : str :=
  match t with
  | [] => []
  | c :: r =>
      if is_slug_char c then c :: sub_runs false r
      else if in_run then sub_runs true r
      else "-"%char :: sub_runs true r
  end.

(** [re.sub(r"-{2,}", "-", t)]: a run of two hyphens or more becomes one
    hyphen (a single hyphen stays). *)
Fixpoint collapse_hyphens (in_run : bool) (t : str) : str :=
  match t with
  | [] => []
  | c :: r =>
      if is_hyphen c
      then if in_run then collapse_hyphens true r else c :: collapse_hyphens true r
      else c :: collapse_hyphens false r
  end.

Definition slugify (text : str) : str :=
  let t := lower (strip text) in
  let t := sub_runs false t in
  let t := strip_by is_hyphen (collapse_hyphens false t) in
  if is_empty t then "item" else t.

Definition resolve_pic_url (pic : str) : str :=
  let pic := strip pic in
  if is_empty pic then ""
  else if startswith "http://" pic || startswith "https://" pic then pic
  else if startswith "/" pic then pic
  else "/static/" ++ pic.

Definition normalize_range_value (v : option Z) : option Z :=
  match v with
  | None => None
  | Some v => if ((0 <? v) && (v <? 1000))%Z then Some (v * 1000)%Z else Some v
  end.

Section Python.

(** [str(v)] for a float, a list or a dict is Python's [repr], which is
    not part of this program; the development holds for any such
    function. *)
Variable repr_other : json -> str.

Definition py_str (v : json) : str :=
  match v with
  | JNull => "None"
  | JBool true => "True"
  | JBool false => "False"
  | JInt z => str_of_Z z
  | JStr s => s
  | _ => repr_other v
  end.

Definition parse_price (value : json) : result Z :=
  match value with
  | JNull => Ok 0%Z
  | JBool b => Ok (Z.b2z b)            (* bool is a subclass of int *)
  | JInt z => Ok z
  | JFloat f => int_of_float f
  | _ =>
      let s := py_str value in
      let s := strip (filter (fun c => negb (is_comma c)) s) in
      let s := filter (fun c => is_digit c || is_dot c) s in
      if is_empty s then Ok 0%Z
      else f <- float_of_text s ;; int_of_float f
  end.

Definition normalize_pics (raw : json) : list str :=
  match raw with
  | JNull => []
  | JList l =>
      map (fun x => strip (py_str x))
          (filter (fun x => negb (is_empty (strip (py_str x)))) l)
  | _ => if is_empty (strip (py_str raw)) then [] else [strip (py_str raw)]
  end.

End Python.

(** ** Records and the store *)

(** The dictionary [load_laptops] builds for one entry.  The key
    "pic_urls" is absent when the record is built ([None]). *)
Record laptop := {
  id : str;
  name : str;
  price : Z;
  pics : list str;
  description : str;
  pic_urls : option (list str)
}.

(** Record dictionaries are objects: the store holds them and lists hold
    references to them.  The store only grows, so no reference dangles;
    [get] has a default for the sake of totality only. *)
Definition loc := nat.
Definition heap := list laptop.

Definition no_laptop : laptop :=
  {| id := []; name := []; price := 0; pics := []; description := [];
     pic_urls := None |}.

Definition get (h : heap) (x : loc) : laptop := nth x h no_laptop.

Fixpoint update (h : heap) (x : loc) (f : laptop -> laptop) : heap :=
  match h, x with
  | [], _ => []
  | r :: h', O => f r :: h'
  | r :: h', S x' => r :: update h' x' f
  end.

(** New objects for the records [rs], and the references to them.  An
    address is only ever compared with another, so which address a new
    object gets does not matter. *)
Definition alloc (h : heap) (rs : list laptop) : list loc * heap :=
  (seq (List.length h) (List.length rs), h ++ rs).

(** [_cache]: the modification time and the list of records of the last
    load.  [st_mtime] is only compared for equality. *)
Record cache_t := { mtime : option Z; items : list loc }.

Record state := { store : heap; cache : cache_t }.

Definition initial : state :=
  {| store := []; cache := {| mtime := None; items := [] |} |}.

(** DATA_FILE as a call finds it: its modification time and what
    [json.load] makes of it ([None] when it raises). *)
Record file := { st_mtime : Z; content : option json }.

(** ** list.sort(key=price) *)

(** Python's sort is stable; the sorted list is then determined by the
    keys and the order of the input (see [stable_sort_unique]), and the
    insertion sort below computes it. *)
Fixpoint insert_by_price (x : laptop) (l : list laptop) : list laptop :=
  match l with
  | [] => [x]
  | y :: r => if (price x <=? price y)%Z then x :: l else y :: insert_by_price x r
  end.

Fixpoint sort_by_price (l : list laptop) : list laptop :=
  match l with
  | [] => []
  | x :: r => insert_by_price x (sort_by_price r)
  end.

(** ** load_laptops, filter_laptops and the routes *)

Section Loader.

Variable repr_other : json -> str.

(** The body of the loop for one entry that is a dict; [idx] is its
    index in the list. *)
Definition build_item (idx : nat) (row : list (str * json)) : result laptop :=
  let name := strip (py_str repr_other (dict_get row "name" (JStr ""))) in
  let name := if is_empty name then "Untitled Laptop " ++ str_of_nat (idx + 1) else name in
  price <- parse_price repr_other (dict_get row "price" (JInt 0)) ;;
  let pics_raw := dict_get row "pic" JNull in
  let pics_raw := if is_None pics_raw then dict_get row "pics" JNull else pics_raw in
  let pics := normalize_pics repr_other pics_raw in
  let desc := strip (py_str repr_other (dict_get row "description" (JStr ""))) in
  let item_id := slugify name ++ "-" ++ str_of_nat (idx + 1) in
  Ok {| id := item_id; name := name; price := price; pics := pics;
        description := desc; pic_urls := None |}.

(** The loop over [enumerate(data)], from index [idx] on. *)
Fixpoint build_items (idx : nat) (data : list json) : result (list laptop) :=
  match data with
  | [] => Ok []
  | JDict row :: rest =>
      item <- build_item idx row ;;
      items <- build_items (S idx) rest ;;
      Ok (item :: items)
  | _ :: rest => build_items (S idx) rest
  end.

Definition cache_hit (c : cache_t) (m : Z) : bool :=
  match mtime c with
  | Some m' => (m' =? m)%Z && negb (match items c with [] => true | _ => false end)
  | None => false
  end.

Definition load_laptops (d : option file) (st : state) : result (list loc) * state :=
  match d with
  | None => (Raise MissingDataFile, st)
  | Some f =>
      if cache_hit (cache st) (st_mtime f) then (Ok (items (cache st)), st)
      else
        match content f with
        | None => (Raise JSONDecodeError, st)
        | Some (JList data) =>
            match build_items 0 data with
            | Raise e => (Raise e, st)
            | Ok rs =>
                let (refs, h) := alloc (store st) (sort_by_price rs) in
                (Ok refs,
                 {| store := h;
                    cache := {| mtime := Some (st_mtime f); items := refs |} |})
            end
        | Some _ => (Raise MalformedData, st)
        end
  end.

Definition filter_laptops (h : heap) (items : list loc)
    (min_price max_price : option Z) (q : option str) : list loc :=
  let out := items in
  let out :=
    match min_price with
    | Some m => filter (fun x => (price (get h x) >=? m)%Z) out
    | None => out
    end in
  let out :=
    match max_price with
    | Some m => filter (fun x => (price (get h x) <=? m)%Z) out
    | None => out
    end in
  match q with
  | Some (c :: r) =>
      let qq := lower (strip (c :: r)) in
      filter (fun x => contains qq (lower (name (get h x)))) out
  | _ => out
  end.

Definition placeholder_160 : str := "https://via.placeholder.com/160x120?text=No+Image".
Definition placeholder_900 : str := "https://via.placeholder.com/900x600?text=No+Image".

(** The body of the loop of [home]: the record at [x] gets its key
    "pic_urls". *)
Definition with_pic_urls (r : laptop) : laptop :=
  let urls := map resolve_pic_url (pics r) in
  {| id := id r; name := name r; price := price r; pics := pics r;
     description := description r;
     pic_urls := Some (match urls with [] => [placeholder_160] | _ => urls end) |}.

Definition set_pic_urls (h : heap) (x : loc) : heap := update h x with_pic_urls.

(** What a route hands to its template or returns as JSON (the entries
    that only echo the parameters are left out).  The bounds of a
    listing are the template's "effective_min" and "effective_max": an
    integer or the empty text, the latter written [None]. *)
Inductive response :=
| Listing (items : list loc) (effective_min effective_max : option Z)
| ProductPage (item : loc) (pics : list str)
| ApiLaptops (count : nat) (items : list loc).

Definition first_some (a b : option Z) : option Z :=
  match a with Some _ => a | None => b end.

(** [v or ""], with [None] for the empty text: None and 0 are falsy. *)
Definition or_blank (v : option Z) : option Z :=
  match v with
  | Some 0%Z => None
  | _ => v
  end.

Definition home (d : option file) (min_price max_price min max : option Z)
    (q : option str) (st : state) : result response * state :=
  match load_laptops d st with
  | (Raise e, st) => (Raise e, st)
  | (Ok items, st) =>
      let effective_min := normalize_range_value (first_some min min_price) in
      let effective_max := normalize_range_value (first_some max max_price) in
      let filtered := filter_laptops (store st) items effective_min effective_max q in
      let h := fold_left set_pic_urls filtered (store st) in
      (Ok (Listing filtered (or_blank effective_min) (or_blank effective_max)),
       {| store := h; cache := cache st |})
  end.

Definition product_page (d : option file) (item_id : str) (st : state)
    : result response * state :=
  match load_laptops d st with
  | (Raise e, st) => (Raise e, st)
  | (Ok items, st) =>
      match find (fun x => str_eqb (id (get (store st) x)) item_id) items with
      | None => (Raise NotFound, st)
      | Some item =>
          let pics := map resolve_pic_url (pics (get (store st) item)) in
          let pics := match pics with [] => [placeholder_900] | _ => pics end in
          let pics := match pics with [p] => [p; p] | _ => pics end in
          (Ok (ProductPage item (firstn 2 pics)), st)
      end
  end.

Definition api_laptops (d : option file) (min_price max_price : option Z)
    (q : option str) (st : state) : result response * state :=
  match load_laptops d st with
  | (Raise e, st) => (Raise e, st)
  | (Ok items, st) =>
      let filtered := filter_laptops (store st) items min_price max_price q in
      (Ok (ApiLaptops (List.length filtered) filtered), st)
  end.

(** A request, and the service as a transition system: each request is
    served on the file as it is at that time. *)
Inductive request :=
| GetHome (min_price max_price min max : option Z) (q : option str)
| GetProduct (item_id : str)
| GetApi (min_price max_price : option Z) (q : option str).

Definition serve (d : option file) (r : request) (st : state) : result response * state :=
  match r with
  | GetHome min_price max_price min max q => home d min_price max_price min max q st
  | GetProduct item_id => product_page d item_id st
  | GetApi min_price max_price q => api_laptops d min_price max_price q st
  end.

Inductive reachable : state -> Prop :=
| reach_initial : reachable initial
| reach_load : forall st d, reachable st -> reachable (snd (load_laptops d st))
| reach_serve : forall st d r, reachable st -> reachable (snd (serve d r st)).

End Loader.

(** * Part II: the vocabulary of the statements *)

(** ** Text *)

(** Two Latin-1 texts equal letter by letter up to case. *)
Definition same_ignoring_case (a b : str) : Prop :=
  Forall2 (fun x y => lower_char x = lower_char y) a b.

(** [hay] contains [needle] as a substring, letter by letter up to
    case. *)
Definition contains_ignoring_case (needle hay : str) : Prop :=
  exists pre seg post, hay = pre ++ seg ++ post /\ same_ignoring_case seg needle.

(** The part of a text after its last hyphen. *)
Fixpoint after_last_hyphen (s : str) : str :=
  match s with
  | [] => []
  | c :: r =>
      if existsb is_hyphen r then after_last_hyphen r
      else if is_hyphen c then r else s
  end.

(** The slug as the specification words it: the name in lower case, each
    run of characters other than letters and digits replaced by one
    hyphen, the hyphens at both ends removed, and "item" when nothing is
    left. *)
Definition slug_of_name (name : str) : str :=
  let t := strip_by is_hyphen (sub_runs false (lower name)) in
  if is_empty t then "item" else t.

Definition lstrip_hyphens := lstrip_by is_hyphen.
Definition rstrip_hyphens := rstrip_by is_hyphen.

(** Whether a run is being read after [l], when [b] tells it before. *)
Fixpoint run_after (b : bool) (l : str) : bool :=
  match l with
  | [] => b
  | c :: r => run_after (negb (is_slug_char c)) r
  end.

(** Case analysis on the 256 code points. *)
Ltac each_char c := destruct c as [[] [] [] [] [] [] [] []].

(** ** Prices *)

Definition price_error (e : exn) : bool :=
  match e with
  | ValueError_float _ | ValueError_nan | OverflowError => true
  | _ => false
  end.

(** The text branch of [parse_price], on the text [str(value)]. *)
Definition price_of_text (s : str) : result Z :=
  let s := strip (filter (fun c => negb (is_comma c)) s) in
  let s := filter (fun c => is_digit c || is_dot c) s in
  if is_empty s then Ok 0%Z
  else f <- float_of_text s ;; int_of_float f.



(** ** Filters and order *)

(** [hay] contains [needle] as a substring. *)
Definition contains_text (needle hay : str) : Prop :=
  exists pre post, hay = pre ++ needle ++ post.

(** The predicates of the filter as the specification words them.  Case
    is ignored the way the program ignores it: the lower-case form of
    the name contains the lower-case form of the trimmed query. *)
Definition satisfies (r : laptop) (min_price max_price : option Z) (q : option str) : Prop :=
  (forall m, min_price = Some m -> (price r >= m)%Z) /\
  (forall m, max_price = Some m -> (price r <= m)%Z) /\
  (forall s, q = Some s -> contains_text (lower (strip s)) (lower (name r))).

(** The same as a test. *)
Definition keeps (r : laptop) (min_price max_price : option Z) (q : option str) : bool :=
  match min_price with Some m => (price r >=? m)%Z | None => true end &&
  match max_price with Some m => (price r <=? m)%Z | None => true end &&
  match q with Some s => contains (lower (strip s)) (lower (name r)) | None => true end.

Definition price_le (a b : laptop) : Prop := (price a <= price b)%Z.

Definition priced (p : Z) (r : laptop) : bool := (price r =? p)%Z.

(** ** Catalogues *)

(** The five fields [load_laptops] gives a record. *)
Definition core (r : laptop) : str * str * Z * list str * str :=
  (id r, name r, price r, pics r, description r).

(** The entries of [data] that are dicts, each with its index, counting
    from [idx]. *)
Fixpoint dicts (idx : nat) (data : list json) : list (nat * list (str * json)) :=
  match data with
  | [] => []
  | JDict row :: rest => (idx, row) :: dicts (S idx) rest
  | _ :: rest => dicts (S idx) rest
  end.

Fixpoint map_result {A B} (f : A -> result B) (l : list A) : result (list B) :=
  match l with
  | [] => Ok []
  | a :: l' => b <- f a ;; bs <- map_result f l' ;; Ok (b :: bs)
  end.

Definition entry_price (row : list (str * json)) : json :=
  dict_get row "price" (JInt 0).

(** The records the cache refers to. *)
Definition snapshot (st : state) : list laptop :=
  map (get (store st)) (items (cache st)).

Section CatalogueSpec.

Variable repr_other : json -> str.

(** The name the loop gives the entry [row] at index [idx]. *)
Definition entry_name (idx : nat) (row : list (str * json)) : str :=
  let name := strip (py_str repr_other (dict_get row "name" (JStr ""))) in
  if is_empty name then "Untitled Laptop " ++ str_of_nat (idx + 1) else name.

(** [rs] is, up to the key "pic_urls", the catalogue of the list [data]:
    the records of its dicts, sorted. *)
Definition loaded_from (data : list json) (rs : list laptop) : Prop :=
  exists built,
    build_items repr_other 0 data = Ok built /\
    map core rs = map core (sort_by_price built).

(** A record built from the dict at index [i] of [data]: its name is
    the name of that entry, its identifier is the slug of the name, a
    hyphen and [i + 1], and its price is the parsed price of the entry. *)
Definition built_from (data : list json) (r : laptop) : Prop :=
  exists i row,
    nth_error data i = Some (JDict row) /\
    name r = entry_name i row /\
    id r = slug_of_name (name r) ++ "-" ++ str_of_nat (i + 1) /\
    parse_price repr_other (entry_price row) = Ok (price r).

(** What holds of the cache in every state: it refers to records of the
    store, and they are the catalogue of some list, up to the key
    "pic_urls". *)
Definition cache_ok (st : state) : Prop :=
  Forall (fun x => x < List.length (store st)) (items (cache st)) /\
  exists data, loaded_from data (snapshot st).

(** What [load_laptops] does, case by case. *)
Inductive load_case (d : option file) (st : state) : result (list loc) * state -> Prop :=
| load_missing :
    d = None -> load_case d st (Raise MissingDataFile, st)
| load_hit f :
    d = Some f -> cache_hit (cache st) (st_mtime f) = true ->
    load_case d st (Ok (items (cache st)), st)
| load_not_json f :
    d = Some f -> cache_hit (cache st) (st_mtime f) = false ->
    content f = None -> load_case d st (Raise JSONDecodeError, st)
| load_not_list f v :
    d = Some f -> cache_hit (cache st) (st_mtime f) = false ->
    content f = Some v -> (forall data, v <> JList data) ->
    load_case d st (Raise MalformedData, st)
| load_bad_entry f data e :
    d = Some f -> cache_hit (cache st) (st_mtime f) = false ->
    content f = Some (JList data) -> build_items repr_other 0 data = Raise e ->
    load_case d st (Raise e, st)
| load_fresh f data built :
    d = Some f -> cache_hit (cache st) (st_mtime f) = false ->
    content f = Some (JList data) -> build_items repr_other 0 data = Ok built ->
    load_case d st
      (Ok (fst (alloc (store st) (sort_by_price built))),
       {| store := snd (alloc (store st) (sort_by_price built));
          cache := {| mtime := Some (st_mtime f);
                      items := fst (alloc (store st) (sort_by_price built)) |} |}).

End CatalogueSpec.

(** ** Shapes of texts *)

(** A reference a browser can fetch: an absolute URL or a rooted path. *)
Definition servable (u : str) : bool :=
  startswith "http://" u || startswith "https://" u || startswith "/" u.

(** A picture reference as [normalize_pics] leaves it: not empty, no
    white space at either end. *)
Definition clean_ref (p : str) : Prop := p <> [] /\ strip p = p.

(** The characters of an identifier: a-z, 0-9 and the hyphen. *)
Definition is_id_char (c : ascii) : bool := is_slug_char c || is_hyphen c.

(** No two hyphens in a row. *)
Fixpoint no_hyphen_pair (t : str) : bool :=
  match t with
  | [] => true
  | c :: r =>
      match r with
      | [] => true
      | c' :: _ => negb (is_hyphen c && is_hyphen c') && no_hyphen_pair r
      end
  end.

(** No hyphen at the left end. *)
Definition head_not_hyphen (t : str) : Prop :=
  match t with [] => True | c :: _ => is_hyphen c = false end.

(** What every slug satisfies. *)
Definition slug_shaped (t : str) : Prop :=
  t <> [] /\ forallb is_id_char t = true /\ no_hyphen_pair t = true /\
  strip_by is_hyphen t = t.

(** A bound that range normalization leaves as it is. *)
Definition plain_bound (v : option Z) : Prop :=
  match v with
  | Some x => ~ (0 < x < 1000)%Z
  | None => True
  end.

(** The shape of the fields [load_laptops] gives a record. *)
Definition record_shaped (r : laptop) : Prop :=
  name r <> [] /\ strip (name r) = name r /\
  strip (description r) = description r /\
  Forall clean_ref (pics r) /\
  id r <> [] /\ forallb is_id_char (id r) = true.

(** A URL the listing and the product page can show. *)
Definition shown_url (u : str) : Prop := u <> [] /\ servable u = true.

(** The records a response refers to. *)
Definition listed_in (r : response) : list loc :=
  match r with
  | Listing items _ _ => items
  | ProductPage item _ => [item]
  | ApiLaptops _ items => items
  end.

(** What the listing route leaves under the key "pic_urls" of a record:
    a non-empty list of URLs that can be shown, the placeholder alone
    for a record without pictures, and otherwise the resolved pictures
    of the record, one for each. *)
Definition pic_urls_set (r : laptop) : Prop :=
  exists urls,
    pic_urls r = Some urls /\ urls <> [] /\
    Forall shown_url urls /\
    List.length urls = Nat.max 1 (List.length (pics r)) /\
    (pics r = [] -> urls = [placeholder_160]) /\
    (pics r <> [] -> urls = map resolve_pic_url (pics r)).

(** The characters [parse_price] keeps of a text. *)
Definition kept_in_price (c : ascii) : bool := is_digit c || is_dot c.

(** ** A sample file *)

(** An instance of [repr_other] for the examples below, none of which
    applies [str] to a float, a list or a dict. *)
Definition repr_blank : json -> str := fun _ => [].

Definition field (key : string) (v : json) : str * json := (list_ascii_of_string key, v).

(** Five entries and one stray text; two entries share name and price,
    one has no name. *)
Definition sample_rows : list json :=
  [ JDict [field "name" (JStr "Dell XPS 13"); field "price" (JStr "Rs 150,000");
           field "pic" (JStr "images/xps.jpg")];
    JStr "not a record";
    JDict [field "name" (JStr "HP 840"); field "price" (JInt 60000);
           field "pics" (JList [JStr "https://x/y.jpg"; JStr " "])];
    JDict [field "name" (JStr "HP 840"); field "price" (JInt 60000)];
    JDict [field "price" (JStr "30,000"); field "description" (JStr " used ")];
    JDict [field "name" (JStr " Lenovo T14 "); field "price" (JStr "90000.75")] ].

Definition sample_file : file :=
  {| st_mtime := 1700000000; content := Some (JList sample_rows) |}.

Definition sample_state : state :=
  snd (load_laptops repr_blank (Some sample_file) initial).

Definition one_entry_file (price : json) : file :=
  {| st_mtime := 1700000000;
     content := Some (JList [JDict [field "name" (JStr "A"); field "price" price]]) |}.

(** The state after the listing of the sample from 50000 up. *)
Definition sample_listed : state :=
  snd (home repr_blank (Some sample_file) (Some 50000%Z) None None None None sample_state).

(** * Part III: properties *)

(** ** The model on examples *)

Example strip_ex : strip "  Dell  XPS " = "Dell  XPS".
Proof. reflexivity. Qed.

Example lower_ex : lower "HP EliteBook 840" = "hp elitebook 840".
Proof. reflexivity. Qed.

Example str_of_nat_ex : str_of_nat 120 = "120" /\ str_of_Z (-45) = "-45" /\ str_of_Z 0 = "0".
Proof. repeat split. Qed.

Example float_of_text_ex1 : bind (float_of_text "45000.75") int_of_float = Ok 45000%Z.
Proof. vm_compute. reflexivity. Qed.

Example float_of_text_ex2 :
  bind (float_of_text "0.99999999999999999999") int_of_float = Ok 1%Z.
Proof. vm_compute. reflexivity. Qed.

Example float_of_text_ex3 :
  float_of_text "0.1" = Ok (S754_finite false 7205759403792794 (-56)).
Proof. vm_compute. reflexivity. Qed.

Example float_of_text_ex4 : float_of_text "9007199254740993" = Ok (S754_finite false 4503599627370496 1).
Proof. vm_compute. reflexivity. Qed.

Example slugify_ex1 : slugify "  Dell XPS-13 (2020)! " = "dell-xps-13-2020".
Proof. reflexivity. Qed.

Example slugify_ex2 : slugify " --- " = "item".
Proof. reflexivity. Qed.

Example resolve_ex :
  resolve_pic_url "images/a.jpg" = "/static/images/a.jpg" /\
  resolve_pic_url "https://x/y.jpg" = "https://x/y.jpg" /\
  resolve_pic_url "/already/rooted.jpg" = "/already/rooted.jpg".
Proof. repeat split. Qed.

Example parse_price_ex (repr : json -> str) :
  parse_price repr (JStr "Rs 45,000") = Ok 45000%Z /\
  parse_price repr (JInt 45000) = Ok 45000%Z /\
  parse_price repr (JStr "45,000") = Ok 45000%Z /\
  parse_price repr (JStr "call us") = Ok 0%Z /\
  parse_price repr (JStr "Rs. 45,000") = Ok 0%Z.
Proof. repeat split; vm_compute; reflexivity. Qed.

Example sample_load :
  fst (load_laptops repr_blank (Some sample_file) initial) = Ok [0; 1; 2; 3; 4] /\
  map (fun r => (id r, price r)) (store sample_state) =
    [ (list_ascii_of_string "untitled-laptop-5-5", 30000%Z);
      (list_ascii_of_string "hp-840-3", 60000%Z);
      (list_ascii_of_string "hp-840-4", 60000%Z);
      (list_ascii_of_string "lenovo-t14-6", 90000%Z);
      (list_ascii_of_string "dell-xps-13-1", 150000%Z) ] /\
  cache sample_state = {| mtime := Some 1700000000%Z; items := [0; 1; 2; 3; 4] |}.
Proof. vm_compute. repeat split. Qed.

Example sample_filter :
  filter_laptops (store sample_state) [0; 1; 2; 3; 4] (Some 50000%Z) (Some 100000%Z) None
  = [1; 2; 3] /\
  filter_laptops (store sample_state) [0; 1; 2; 3; 4] None None (Some (" hp " : str))
  = [1; 2].
Proof. vm_compute. repeat split. Qed.

(** ** Text *)

Lemma startswith_iff (p s : str) :
  startswith p s = true <-> exists post, s = p ++ post.
Proof.
  revert s; induction p as [|a p IH]; intros s; simpl.
  - split; [intros _; now exists s | reflexivity].
  - destruct s as [|b s].
    + split; [discriminate | intros [post H]; discriminate].
    + rewrite andb_true_iff, Ascii.eqb_eq, IH. split.
      * intros [-> [post ->]]. now exists post.
      * intros [post H]. injection H as -> ->. split; [reflexivity | now exists post].
Qed.

Lemma contains_iff (needle hay : str) :
  contains needle hay = true <-> exists pre post, hay = pre ++ needle ++ post.
Proof.
  induction hay as [|c hay IH]; simpl.
  - rewrite orb_false_r, startswith_iff. split.
    + intros [post H]. now exists [], post.
    + intros [pre [post H]]. destruct pre; [now exists post | discriminate].
  - rewrite orb_true_iff, startswith_iff, IH. split.
    + intros [[post H] | [pre [post H]]].
      * now exists [], post.
      * exists (c :: pre), post. simpl. now rewrite H.
    + intros [[|a pre] [post H]].
      * left. now exists post.
      * right. injection H as _ H. now exists pre, post.
Qed.

Lemma lower_eq_iff (a b : str) : lower a = lower b <-> same_ignoring_case a b.
Proof.
  unfold lower, same_ignoring_case. revert b.
  induction a as [|x a IH]; intros [|y b]; simpl; split; intros H;
    try discriminate; try constructor; try (inversion H; fail).
  - now injection H.
  - apply IH. now injection H.
  - inversion H; subst. f_equal; [assumption | now apply IH].
Qed.

(** On Latin-1 text, comparing the lower-case forms is comparing letter
    by letter up to case. *)
Lemma contains_lower_iff (needle hay : str) :
  contains (lower needle) (lower hay) = true <-> contains_ignoring_case needle hay.
Proof.
  rewrite contains_iff. unfold contains_ignoring_case, lower. split.
  - intros (pre & post & H).
    apply map_eq_app in H. destruct H as (pre' & rest & -> & Hpre & H).
    apply map_eq_app in H. destruct H as (seg & post' & -> & Hseg & Hpost).
    exists pre', seg, post'. split; [reflexivity | now apply lower_eq_iff].
  - intros (pre & seg & post & -> & H). apply lower_eq_iff in H. unfold lower in H.
    exists (map lower_char pre), (map lower_char post).
    rewrite !map_app. now rewrite H.
Qed.

(** ** filter_laptops *)

Lemma keeps_iff r min_price max_price q :
  keeps r min_price max_price q = true <-> satisfies r min_price max_price q.
Proof.
  unfold keeps, satisfies. rewrite !andb_true_iff. split.
  - intros [[H1 H2] H3]. repeat split.
    + intros m ->. now apply Z.geb_le, Z.le_ge in H1.
    + intros m ->. now apply Z.leb_le in H2.
    + intros s ->. now apply contains_iff.
  - intros (H1 & H2 & H3). repeat split.
    + destruct min_price as [m|]; [|reflexivity].
      apply Z.geb_le, Z.ge_le, H1; reflexivity.
    + destruct max_price as [m|]; [|reflexivity].
      apply Z.leb_le, H2; reflexivity.
    + destruct q as [s|]; [|reflexivity].
      apply contains_iff, H3; reflexivity.
Qed.

Lemma filter_filter {A} (f g : A -> bool) (l : list A) :
  filter g (filter f l) = filter (fun x => f x && g x) l.
Proof.
  induction l as [|a l IH]; simpl; [reflexivity|].
  destruct (f a); simpl; [destruct (g a)|]; now rewrite IH.
Qed.

Lemma filter_true {A} (l : list A) : filter (fun _ => true) l = l.
Proof. induction l; simpl; congruence. Qed.

Lemma contains_nil (hay : str) : contains [] hay = true.
Proof. destruct hay; reflexivity. Qed.

Lemma filter_laptops_keeps h items min_price max_price q :
  filter_laptops h items min_price max_price q =
  filter (fun x => keeps (get h x) min_price max_price q) items.
Proof.
  unfold filter_laptops, keeps.
  assert (E : forall l : list loc,
             match q with
             | Some (c :: r) =>
                 filter (fun x => contains (lower (strip (c :: r))) (lower (name (get h x)))) l
             | _ => l
             end =
             filter (fun x => match q with
                              | Some s => contains (lower (strip s)) (lower (name (get h x)))
                              | None => true
                              end) l).
  { intros l. destruct q as [[|c r]|].
    - erewrite filter_ext; [symmetry; apply filter_true|].
      intros x. apply contains_nil.
    - reflexivity.
    - symmetry; apply filter_true. }
  rewrite E.
  destruct min_price, max_price; rewrite ?filter_filter;
    apply filter_ext; intros x; simpl;
    rewrite ?andb_assoc, ?andb_true_l, ?andb_true_r; reflexivity.
Qed.

Lemma filter_laptops_incl h its min_price max_price q x :
  In x (filter_laptops h its min_price max_price q) -> In x its.
Proof. rewrite filter_laptops_keeps. intros H. now apply filter_In in H. Qed.


(** ** Routes and range normalization *)

Section RouteFacts.

Variable repr_other : json -> str.

Lemma home_listing d min_price max_price min max q st items st1 :
  load_laptops repr_other d st = (Ok items, st1) ->
  home repr_other d min_price max_price min max q st =
  (let effective_min := normalize_range_value (first_some min min_price) in
   let effective_max := normalize_range_value (first_some max max_price) in
   let filtered := filter_laptops (store st1) items effective_min effective_max q in
   (Ok (Listing filtered (or_blank effective_min) (or_blank effective_max)),
    {| store := fold_left set_pic_urls filtered (store st1); cache := cache st1 |})).
Proof. intros H. unfold home. rewrite H. reflexivity. Qed.

Lemma api_laptops_listing d min_price max_price q st items st1 :
  load_laptops repr_other d st = (Ok items, st1) ->
  api_laptops repr_other d min_price max_price q st =
  (let filtered := filter_laptops (store st1) items min_price max_price q in
   (Ok (ApiLaptops (List.length filtered) filtered), st1)).
Proof. intros H. unfold api_laptops. rewrite H. reflexivity. Qed.

Lemma normalize_range_value_small v :
  (0 < v < 1000)%Z -> normalize_range_value (Some v) = Some (v * 1000)%Z.
Proof.
  intros [H1 H2]. unfold normalize_range_value.
  apply Z.ltb_lt in H1, H2. now rewrite H1, H2.
Qed.

Lemma normalize_range_value_other v :
  ~ (0 < v < 1000)%Z -> normalize_range_value (Some v) = Some v.
Proof.
  intros H. unfold normalize_range_value.
  destruct (0 <? v)%Z eqn:H1; destruct (v <? 1000)%Z eqn:H2; try reflexivity.
  apply Z.ltb_lt in H1, H2. now destruct H.
Qed.

(** C7. [normalize_range_value] keeps None, multiplies by 1000 a value
    strictly between 0 and 1000, and returns any other value (0, or 1000
    and more) as it is; and the listing route normalizes and filters
    with [min] (resp. [max]) whenever it is supplied, whatever
    [min_price] (resp. [max_price]) is.  The template gets the bounds
    the route filtered with, a bound 0 as the empty text. *)
Theorem normalize_range_value_spec d st min_price max_price min max q :
  normalize_range_value None = None /\
  (forall v, (0 < v < 1000)%Z -> normalize_range_value (Some v) = Some (v * 1000)%Z) /\
  (forall v, (v = 0 \/ 1000 <= v)%Z -> normalize_range_value (Some v) = Some v) /\
  (forall items st1, load_laptops repr_other d st = (Ok items, st1) ->
     let effective_min :=
       normalize_range_value (match min with Some a => Some a | None => min_price end) in
     let effective_max :=
       normalize_range_value (match max with Some b => Some b | None => max_price end) in
     fst (home repr_other d min_price max_price min max q st) =
     Ok (Listing (filter_laptops (store st1) items effective_min effective_max q)
                 (or_blank effective_min) (or_blank effective_max))).
Proof.
  split; [reflexivity|]. split; [apply normalize_range_value_small|].
  split.
  - intros v H. apply normalize_range_value_other. lia.
  - intros items st1 H. rewrite (@home_listing _ _ _ _ _ _ _ _ _ H). simpl.
    unfold first_some. destruct min, max; reflexivity.
Qed.

Lemma or_blank_nonzero z : z <> 0%Z -> or_blank (Some z) = Some z.
Proof. intros H. destruct z; [now destruct H | reflexivity ..]. Qed.

(** C10. The JSON endpoint filters with [min_price] and [max_price] as
    they are given, whatever the parameters: it returns the records of
    the catalogue, in order, whose price is at least [min_price] and at
    most [max_price] (each when supplied) and whose name matches the
    query, and their number.  The listing route filters in the same way
    with the normalized bounds.  So with a bound [v] strictly between 0
    and 1000 the JSON endpoint keeps the records with price at least
    (resp. at most) [v] where the listing route keeps those with price
    at least (resp. at most) [v * 1000], whatever the other parameters
    and under either name of the parameter of the listing route. *)
Theorem api_does_not_normalize d st items st1 :
  load_laptops repr_other d st = (Ok items, st1) ->
  let h := store st1 in
  let kept mn mx q := filter (fun x => keeps (get h x) mn mx q) items in
  (forall mn mx q x,
     In x (kept mn mx q) <-> In x items /\ satisfies (get h x) mn mx q) /\
  (forall min_price max_price q,
     fst (api_laptops repr_other d min_price max_price q st) =
       Ok (ApiLaptops (List.length (kept min_price max_price q))
                      (kept min_price max_price q))) /\
  (forall min_price max_price min max q,
     let emin := normalize_range_value (first_some min min_price) in
     let emax := normalize_range_value (first_some max max_price) in
     fst (home repr_other d min_price max_price min max q st) =
       Ok (Listing (kept emin emax q) (or_blank emin) (or_blank emax))) /\
  (forall v, (0 < v < 1000)%Z ->
     (forall max_price q,
        fst (api_laptops repr_other d (Some v) max_price q st) =
          Ok (ApiLaptops (List.length (kept (Some v) max_price q))
                         (kept (Some v) max_price q))) /\
     (forall min_price q,
        fst (api_laptops repr_other d min_price (Some v) q st) =
          Ok (ApiLaptops (List.length (kept min_price (Some v) q))
                         (kept min_price (Some v) q))) /\
     (forall max_price max q,
        let emax := normalize_range_value (first_some max max_price) in
        fst (home repr_other d (Some v) max_price None max q st) =
          Ok (Listing (kept (Some (v * 1000)%Z) emax q)
                      (Some (v * 1000)%Z) (or_blank emax))) /\
     (forall min_price max_price max q,
        let emax := normalize_range_value (first_some max max_price) in
        fst (home repr_other d min_price max_price (Some v) max q st) =
          Ok (Listing (kept (Some (v * 1000)%Z) emax q)
                      (Some (v * 1000)%Z) (or_blank emax))) /\
     (forall min_price min q,
        let emin := normalize_range_value (first_some min min_price) in
        fst (home repr_other d min_price (Some v) min None q st) =
          Ok (Listing (kept emin (Some (v * 1000)%Z) q)
                      (or_blank emin) (Some (v * 1000)%Z))) /\
     (forall min_price max_price min q,
        let emin := normalize_range_value (first_some min min_price) in
        fst (home repr_other d min_price max_price min (Some v) q st) =
          Ok (Listing (kept emin (Some (v * 1000)%Z) q)
                      (or_blank emin) (Some (v * 1000)%Z)))).
Proof.
  intros H h kept.
  assert (Hapi : forall min_price max_price q,
             fst (api_laptops repr_other d min_price max_price q st) =
             Ok (ApiLaptops (List.length (kept min_price max_price q))
                            (kept min_price max_price q))).
  { intros min_price max_price q.
    rewrite (@api_laptops_listing _ _ _ _ _ _ _ H). cbv zeta. cbn [fst].
    now rewrite filter_laptops_keeps. }
  assert (Hhome : forall min_price max_price min max q,
             fst (home repr_other d min_price max_price min max q st) =
             Ok (Listing (kept (normalize_range_value (first_some min min_price))
                               (normalize_range_value (first_some max max_price)) q)
                         (or_blank (normalize_range_value (first_some min min_price)))
                         (or_blank (normalize_range_value (first_some max max_price))))).
  { intros min_price max_price min max q.
    rewrite (@home_listing _ _ _ _ _ _ _ _ _ H). cbv zeta. cbn [fst].
    now rewrite filter_laptops_keeps. }
  split; [|split; [exact Hapi|split; [exact Hhome|]]].
  - intros mn mx q x. unfold kept. rewrite filter_In, keeps_iff. reflexivity.
  - intros v Hv.
    assert (Ev : normalize_range_value (Some v) = Some (v * 1000)%Z)
      by now apply normalize_range_value_small.
    assert (Eb : or_blank (Some (v * 1000)%Z) = Some (v * 1000)%Z)
      by (apply or_blank_nonzero; lia).
    split; [intros; apply Hapi|]. split; [intros; apply Hapi|].
    split; [|split; [|split]]; intros; cbv zeta; rewrite Hhome;
      unfold first_some; rewrite Ev, Eb; reflexivity.
Qed.

End RouteFacts.

(** ** list.sort(key=price) *)

Lemma insert_by_price_perm x l : Permutation (x :: l) (insert_by_price x l).
Proof.
  induction l as [|y l IH]; simpl; [reflexivity|].
  destruct (price x <=? price y)%Z; [reflexivity|].
  rewrite perm_swap. now apply perm_skip.
Qed.

Lemma sort_by_price_perm l : Permutation l (sort_by_price l).
Proof.
  induction l as [|x l IH]; simpl; [constructor|].
  rewrite <- insert_by_price_perm. now apply perm_skip.
Qed.

Lemma insert_by_price_sorted x l :
  StronglySorted price_le l -> StronglySorted price_le (insert_by_price x l).
Proof.
  induction 1 as [|y l Hs IH Hy]; simpl.
  - repeat constructor.
  - destruct (price x <=? price y)%Z eqn:E.
    + apply Z.leb_le in E. constructor; [now constructor|].
      constructor; [exact E|].
      eapply Forall_impl; [|exact Hy]. unfold price_le. intros; lia.
    + apply Z.leb_gt in E. constructor; [exact IH|].
      rewrite <- insert_by_price_perm. constructor; [|exact Hy].
      unfold price_le. lia.
Qed.

Lemma sort_by_price_sorted l : StronglySorted price_le (sort_by_price l).
Proof.
  induction l; simpl; [constructor | now apply insert_by_price_sorted].
Qed.

Lemma insert_by_price_priced p x l :
  filter (priced p) (insert_by_price x l) = filter (priced p) (x :: l).
Proof.
  induction l as [|y l IH]; simpl; [reflexivity|].
  destruct (price x <=? price y)%Z eqn:E; [reflexivity|].
  apply Z.leb_gt in E. simpl in *. rewrite IH. unfold priced.
  destruct (price x =? p)%Z eqn:Ex; destruct (price y =? p)%Z eqn:Ey; try reflexivity.
  apply Z.eqb_eq in Ex, Ey. lia.
Qed.

(** Stability: the records of one price keep their order. *)
Lemma sort_by_price_stable p l :
  filter (priced p) (sort_by_price l) = filter (priced p) l.
Proof.
  induction l as [|x l IH]; simpl; [reflexivity|].
  rewrite insert_by_price_priced. simpl. now rewrite IH.
Qed.

Lemma priced_head_in p a l l' :
  priced p a = true -> filter (priced p) (a :: l) = filter (priced p) l' -> In a l'.
Proof.
  intros Ha H. simpl in H. rewrite Ha in H.
  assert (Hin : In a (filter (priced p) l')) by (rewrite <- H; now left).
  now apply filter_In in Hin.
Qed.

(** Two sorted lists with the same records at each price, in the same
    order, are the same list. *)
Lemma sorted_priced_eq l1 : forall l2,
  StronglySorted price_le l1 -> StronglySorted price_le l2 ->
  (forall p, filter (priced p) l1 = filter (priced p) l2) -> l1 = l2.
Proof.
  induction l1 as [|a l1 IH]; intros [|b l2] H1 H2 H.
  - reflexivity.
  - specialize (H (price b)). simpl in H.
    assert (Hp : priced (price b) b = true) by apply Z.eqb_refl.
    rewrite Hp in H. discriminate.
  - specialize (H (price a)). simpl in H.
    assert (Hp : priced (price a) a = true) by apply Z.eqb_refl.
    rewrite Hp in H. discriminate.
  - inversion H1 as [|? ? Hs1 Ha]; inversion H2 as [|? ? Hs2 Hb]; subst.
    assert (Hpa : priced (price a) a = true) by apply Z.eqb_refl.
    assert (Hpb : priced (price b) b = true) by apply Z.eqb_refl.
    assert (E : price a = price b).
    { pose proof (@priced_head_in _ _ _ _ Hpa (H (price a))) as Hin1.
      pose proof (@priced_head_in _ _ _ _ Hpb (eq_sym (H (price b)))) as Hin2.
      rewrite Forall_forall in Ha, Hb. unfold price_le in *.
      destruct Hin1 as [->|Hin1]; [reflexivity|].
      destruct Hin2 as [->|Hin2]; [reflexivity|].
      apply Hb in Hin1. apply Ha in Hin2. lia. }
    assert (Eab : a = b).
    { specialize (H (price a)). simpl in H. rewrite Hpa in H.
      rewrite E in H at 2. rewrite Hpb in H. congruence. }
    subst b. f_equal. apply IH; try assumption.
    intros p. specialize (H p). simpl in H.
    destruct (priced p a); congruence.
Qed.

(** Any stable sort by price returns what [sort_by_price] returns. *)
Lemma stable_sort_unique l l' :
  StronglySorted price_le l' ->
  (forall p, filter (priced p) l' = filter (priced p) l) ->
  l' = sort_by_price l.
Proof.
  intros Hs Hf. apply sorted_priced_eq; [assumption | apply sort_by_price_sorted |].
  intros p. now rewrite sort_by_price_stable.
Qed.

(** ** Identifiers *)

Lemma string_of_uint_digits d :
  forallb is_digit (list_ascii_of_string (NilEmpty.string_of_uint d)) = true.
Proof. induction d; simpl; auto. Qed.

Lemma str_of_nat_digits n : forallb is_digit (str_of_nat n) = true.
Proof. apply string_of_uint_digits. Qed.

Lemma str_of_nat_inj n m : str_of_nat n = str_of_nat m -> n = m.
Proof.
  unfold str_of_nat. intros H.
  apply (f_equal string_of_list_ascii) in H.
  rewrite !string_of_list_ascii_of_string in H.
  apply (f_equal NilEmpty.uint_of_string) in H.
  rewrite !NilEmpty.usu in H.
  apply DecimalNat.Unsigned.to_uint_inj. congruence.
Qed.

Lemma digits_no_hyphen s : forallb is_digit s = true -> existsb is_hyphen s = false.
Proof.
  induction s as [|c s IH]; simpl; [reflexivity|].
  rewrite andb_true_iff. intros [Hc Hs]. rewrite (IH Hs), orb_false_r.
  unfold is_digit, is_hyphen, between in *.
  apply andb_true_iff in Hc. destruct Hc as [Hc _].
  apply N.leb_le in Hc. apply N.eqb_neq. lia.
Qed.

Lemma after_last_hyphen_app (slug num : str) :
  existsb is_hyphen num = false ->
  after_last_hyphen (slug ++ "-" ++ num) = num.
Proof.
  intros Hn. induction slug as [|c slug IH]; simpl.
  - now rewrite Hn.
  - rewrite existsb_app. simpl. now rewrite orb_true_r.
Qed.

(** An identifier determines the position it was built from. *)
Lemma item_id_inj (s1 s2 : str) (n1 n2 : nat) :
  s1 ++ "-" ++ str_of_nat n1 = s2 ++ "-" ++ str_of_nat n2 -> n1 = n2.
Proof.
  intros H. apply (f_equal after_last_hyphen) in H.
  rewrite !after_last_hyphen_app in H
    by (apply digits_no_hyphen, str_of_nat_digits).
  now apply str_of_nat_inj.
Qed.

(** ** slugify *)

Lemma isspace_lower_char c : isspace (lower_char c) = isspace c.
Proof. each_char c; reflexivity. Qed.

Lemma isspace_not_slug c : isspace c = true -> is_slug_char c = false.
Proof. each_char c; intros H; try reflexivity; discriminate H. Qed.

Lemma slug_not_hyphen c : is_slug_char c = true -> is_hyphen c = false.
Proof. each_char c; intros H; try reflexivity; discriminate H. Qed.

Section Strip.

Variable p : ascii -> bool.

Lemma lstrip_by_app (a b : str) :
  lstrip_by p (a ++ b) = if forallb p a then lstrip_by p b else lstrip_by p a ++ b.
Proof.
  induction a as [|x a IH]; simpl; [reflexivity|].
  destruct (p x); simpl; [exact IH | reflexivity].
Qed.

Lemma lstrip_by_all (a : str) : forallb p a = true -> lstrip_by p a = [].
Proof.
  induction a as [|x a IH]; simpl; [reflexivity|].
  destruct (p x); simpl; [exact IH | discriminate].
Qed.

Lemma forallb_rev (a : str) : forallb p (rev a) = forallb p a.
Proof.
  induction a as [|x a IH]; simpl; [reflexivity|].
  rewrite forallb_app, IH. simpl. rewrite andb_true_r. apply andb_comm.
Qed.

(** [rstrip_by] read from the left. *)
Lemma rstrip_by_cons (c : ascii) (r : str) :
  rstrip_by p (c :: r) =
  if forallb p r then (if p c then [] else [c]) else c :: rstrip_by p r.
Proof.
  unfold rstrip_by. simpl. rewrite lstrip_by_app, forallb_rev.
  destruct (forallb p r); simpl.
  - destruct (p c); reflexivity.
  - rewrite rev_app_distr. reflexivity.
Qed.

Lemma strip_by_comm (s : str) :
  lstrip_by p (rstrip_by p s) = rstrip_by p (lstrip_by p s).
Proof.
  induction s as [|c r IH]; [reflexivity|].
  rewrite rstrip_by_cons. simpl lstrip_by at 2.
  destruct (p c) eqn:Hc.
  - destruct (forallb p r) eqn:Hr.
    + now rewrite (lstrip_by_all _ Hr).
    + simpl. now rewrite Hc.
  - rewrite rstrip_by_cons. destruct (forallb p r); simpl; now rewrite Hc.
Qed.

End Strip.

Lemma lower_lstrip s : lower (lstrip_by isspace s) = lstrip_by isspace (lower s).
Proof.
  induction s as [|c s IH]; simpl; [reflexivity|].
  rewrite isspace_lower_char. destruct (isspace c); [exact IH | reflexivity].
Qed.

Lemma lower_rev s : lower (rev s) = rev (lower s).
Proof. apply map_rev. Qed.

Lemma lower_rstrip s : lower (rstrip_by isspace s) = rstrip_by isspace (lower s).
Proof. unfold rstrip_by. now rewrite lower_rev, lower_lstrip, lower_rev. Qed.

Lemma lower_strip s : lower (strip s) = strip (lower s).
Proof. unfold strip, strip_by. now rewrite lower_rstrip, lower_lstrip. Qed.

Lemma collapse_sub_runs b t : collapse_hyphens b (sub_runs b t) = sub_runs b t.
Proof.
  revert b; induction t as [|c r IH]; intros b; simpl; [reflexivity|].
  destruct (is_slug_char c) eqn:Hc; simpl.
  - rewrite (slug_not_hyphen _ Hc). now rewrite IH.
  - destruct b; [apply IH|]. simpl. now rewrite IH.
Qed.

Lemma lstrip_sub_runs_flag t :
  lstrip_hyphens (sub_runs true t) = lstrip_hyphens (sub_runs false t).
Proof.
  destruct t as [|c r]; simpl; [reflexivity|].
  destruct (is_slug_char c); reflexivity.
Qed.

Lemma lstrip_sub_runs_lstrip b t :
  lstrip_hyphens (sub_runs b (lstrip_by isspace t)) = lstrip_hyphens (sub_runs b t).
Proof.
  induction t as [|c r IH]; simpl; [reflexivity|].
  destruct (isspace c) eqn:Hc; [|reflexivity].
  rewrite (isspace_not_slug _ Hc), IH.
  destruct b; simpl; [reflexivity|].
  unfold lstrip_hyphens. simpl. symmetry. apply lstrip_sub_runs_flag.
Qed.

Lemma sub_runs_app b l l' :
  sub_runs b (l ++ l') = sub_runs b l ++ sub_runs (run_after b l) l'.
Proof.
  revert b; induction l as [|c r IH]; intros b; simpl; [reflexivity|].
  destruct (is_slug_char c); simpl; [now rewrite IH|].
  destruct b; simpl; now rewrite IH.
Qed.

Lemma run_after_last b l c : run_after b (l ++ [c]) = negb (is_slug_char c).
Proof. revert b; induction l as [|x l IH]; intros b; simpl; [reflexivity | apply IH]. Qed.

Lemma sub_runs_rev t : sub_runs false (rev t) = rev (sub_runs false t).
Proof.
  induction t as [|c r IH]; [reflexivity|].
  simpl rev at 1. rewrite sub_runs_app, IH. simpl sub_runs at 3.
  destruct (is_slug_char c) eqn:Hc.
  - simpl. now rewrite Hc.
  - destruct r as [|x r']; simpl; rewrite Hc; [reflexivity|].
    rewrite run_after_last.
    destruct (is_slug_char x); simpl; [reflexivity|].
    now rewrite app_nil_r.
Qed.

Lemma rstrip_sub_runs_rstrip t :
  rstrip_hyphens (sub_runs false (rstrip_by isspace t)) = rstrip_hyphens (sub_runs false t).
Proof.
  unfold rstrip_hyphens, rstrip_by.
  rewrite <- !sub_runs_rev, rev_involutive.
  fold lstrip_hyphens. now rewrite lstrip_sub_runs_lstrip.
Qed.

(** The code computes the slug as worded: its first [strip] and its
    second substitution change nothing. *)
Lemma slugify_slug_of_name (text : str) : slugify text = slug_of_name text.
Proof.
  unfold slugify, slug_of_name.
  rewrite collapse_sub_runs, lower_strip.
  assert (E : strip_by is_hyphen (sub_runs false (strip (lower text))) =
              strip_by is_hyphen (sub_runs false (lower text))).
  { unfold strip, strip_by.
    rewrite <- (strip_by_comm is_hyphen
                  (sub_runs false (rstrip_by isspace (lstrip_by isspace (lower text))))).
    pose proof (rstrip_sub_runs_rstrip (lstrip_by isspace (lower text))) as R.
    unfold rstrip_hyphens in R. rewrite R.
    rewrite strip_by_comm.
    pose proof (lstrip_sub_runs_lstrip false (lower text)) as L.
    unfold lstrip_hyphens in L. now rewrite L. }
  now rewrite E.
Qed.

(** ** parse_price *)



Lemma int_of_float_raises f e : int_of_float f = Raise e -> price_error e = true.
Proof. destruct f; simpl; intros H; try discriminate; injection H as <-; reflexivity. Qed.


Lemma price_of_text_raises s e : price_of_text s = Raise e -> price_error e = true.
Proof.
  unfold price_of_text. destruct (is_empty _); [discriminate|].
  unfold float_of_text. destruct (decimal_of_text _) as [[n k]|]; simpl.
  - apply int_of_float_raises.
  - intros H. injection H as <-. reflexivity.
Qed.


Lemma filter_lstrip_by (p q : ascii -> bool) (s : str) :
  (forall c, p c = true -> q c = false) ->
  filter q (lstrip_by p s) = filter q s.
Proof.
  intros H. induction s as [|c r IH]; simpl; [reflexivity|].
  destruct (p c) eqn:Hc; [|reflexivity]. now rewrite (H _ Hc).
Qed.

Lemma filter_strip_by (p q : ascii -> bool) (s : str) :
  (forall c, p c = true -> q c = false) ->
  filter q (strip_by p s) = filter q s.
Proof.
  intros H. unfold strip_by, rstrip_by.
  rewrite filter_rev, (filter_lstrip_by _ _ _ H), <- filter_rev, rev_involutive.
  now apply filter_lstrip_by.
Qed.

Lemma space_not_kept c : isspace c = true -> kept_in_price c = false.
Proof. each_char c; intros H; try reflexivity; discriminate H. Qed.

Lemma kept_not_comma c : kept_in_price c = true -> negb (is_comma c) = true.
Proof. each_char c; intros H; try reflexivity; discriminate H. Qed.

(** The text branch of [parse_price] in terms of the characters kept:
    removing the commas and stripping first changes nothing. *)
Lemma price_of_text_kept (s : str) :
  price_of_text s =
  if is_empty (filter kept_in_price s) then Ok 0%Z
  else f <- float_of_text (filter kept_in_price s) ;; int_of_float f.
Proof.
  unfold price_of_text. fold kept_in_price.
  assert (E : filter kept_in_price (strip (filter (fun c => negb (is_comma c)) s))
              = filter kept_in_price s).
  { unfold strip. rewrite filter_strip_by by apply space_not_kept.
    rewrite filter_filter. apply filter_ext. intros c.
    destruct (kept_in_price c) eqn:Hk.
    - now rewrite (kept_not_comma _ Hk).
    - apply andb_false_r. }
  now rewrite E.
Qed.

Lemma is_empty_iff (s : str) : is_empty s = true <-> s = [].
Proof. destruct s; simpl; split; congruence. Qed.

Lemma digits2_pos_size p : digits2_pos p = Pos.size p.
Proof. induction p; simpl; congruence. Qed.

Lemma Zdigits2_log2 p : Zdigits2 (Z.pos p) = (Z.log2 (Z.pos p) + 1)%Z.
Proof.
  simpl Zdigits2. rewrite digits2_pos_size.
  destruct p; simpl; try reflexivity; rewrite Pos.add_1_r; reflexivity.
Qed.

(** An integer below 2^53 is a binary64 value: rounding it changes
    nothing, and [int] gives it back. *)
Lemma binary64_of_integer (n : Z) :
  (0 <= n < 2 ^ 53)%Z -> int_of_float (binary64_of_ratio n 1) = Ok n.
Proof.
  intros [H0 Hp]. destruct n as [|p|p]; [reflexivity | | lia].
  assert (HD : (1 <= Zdigits2 (Z.pos p) <= 53)%Z).
  { rewrite Zdigits2_log2. pose proof (Z.log2_nonneg (Z.pos p)).
    assert (Z.log2 (Z.pos p) < 53)%Z by (apply Z.log2_lt_pow2; lia). lia. }
  unfold binary64_of_ratio, SFdiv_core_binary.
  set (D := Zdigits2 (Z.pos p)) in *.
  change (Zdigits2 1) with 1%Z.
  assert (E1 : IntDef.Z.min (fexp 53 1024 (D + 0 - (1 + 0))) (0 - 0) = (D - 54)%Z).
  { unfold fexp, emin. lia. }
  rewrite E1.
  replace (0 - 0 - (D - 54))%Z with (54 - D)%Z by lia.
  destruct (54 - D)%Z as [|k|k] eqn:Ek; try lia.
  rewrite <- Ek.
  assert (Hs : exists p', IntDef.Z.shiftl (Z.pos p) (54 - D) = Z.pos (xO p') /\
                          Z.pos p' = (Z.pos p * 2 ^ (53 - D))%Z).
  { exists (Z.to_pos (Z.pos p * 2 ^ (53 - D))).
    assert (0 < Z.pos p * 2 ^ (53 - D))%Z
      by (apply Z.mul_pos_pos; [lia | apply Z.pow_pos_nonneg; lia]).
    split; [|now apply Z2Pos.id].
    change (IntDef.Z.shiftl (Z.pos p) (54 - D)) with (Z.shiftl (Z.pos p) (54 - D)).
    rewrite Z.shiftl_mul_pow2 by lia.
    assert (E2 : (2 ^ (54 - D) = 2 * 2 ^ (53 - D))%Z)
      by (rewrite <- Z.pow_succ_r by lia; f_equal; lia).
    rewrite E2, (Pos2Z.inj_xO (Z.to_pos _)), Z2Pos.id by assumption. lia. }
  destruct Hs as (p' & -> & Hp').
  assert (Ed : IntDef.Z.div_eucl (Z.pos (xO p')) 1 = (Z.pos (xO p'), 0%Z)).
  { change IntDef.Z.div_eucl with Z.div_eucl.
    pose proof (Z.div_1_r (Z.pos (xO p'))) as Hq.
    pose proof (Z.mod_1_r (Z.pos (xO p'))) as Hr.
    unfold Z.div, Z.modulo in Hq, Hr.
    destruct (Z.div_eucl (Z.pos (xO p')) 1) as [q r]. congruence. }
  rewrite Ed. change (new_location 1 0) with loc_Exact.
  assert (Hd' : Zdigits2 (Z.pos p') = 53%Z).
  { rewrite Zdigits2_log2, Hp'. rewrite Z.log2_mul_pow2 by lia.
    fold (Zdigits2 (Z.pos p)). subst D. rewrite Zdigits2_log2 in *. lia. }
  unfold binary_round_aux, shr_fexp.
  assert (Hd2 : Zdigits2 (Z.pos p'~0) = 54%Z).
  { change (Zdigits2 (Z.pos p'~0)) with (Z.pos (Pos.succ (digits2_pos p'))).
    rewrite Pos2Z.inj_succ.
    change (Z.pos (digits2_pos p')) with (Zdigits2 (Z.pos p')). lia. }
  rewrite Hd2.
  replace (fexp 53 1024 (54 + (D - 54)) - (D - 54))%Z with 1%Z
    by (unfold fexp, emin; lia).
  cbn [shr shr_record_of_loc iter_pos shr_1 loc_of_shr_record round_nearest_even shr_m].
  cbn [orb]. cbn [round_nearest_even].
  rewrite Hd'.
  replace (fexp 53 1024 (53 + (D - 54 + 1)) - (D - 54 + 1))%Z with 0%Z
    by (unfold fexp, emin; lia).
  cbn [shr shr_m].
  replace (D - 54 + 1 <=? 1024 - 53)%Z with true by (symmetry; apply Z.leb_le; lia).
  cbn [int_of_float]. f_equal.
  destruct (0 <=? D - 54 + 1)%Z eqn:E0.
  - apply Z.leb_le in E0. replace (D - 54 + 1)%Z with 0%Z by lia.
    rewrite Hp'. replace (53 - D)%Z with 0%Z by lia. simpl (2 ^ 0)%Z. lia.
  - apply Z.leb_gt in E0. rewrite Hp'.
    replace (- (D - 54 + 1))%Z with (53 - D)%Z by lia.
    apply Z.div_mul. apply Z.pow_nonzero; lia.
Qed.

Lemma span_digits_all (k : str) : forallb is_digit k = true -> span_digits k = (k, []).
Proof.
  induction k as [|c r IH]; simpl; [reflexivity|].
  rewrite andb_true_iff. intros [Hc Hr]. now rewrite Hc, (IH Hr).
Qed.

Lemma digit_val_range c : is_digit c = true -> (0 <= digit_val c <= 9)%Z.
Proof. each_char c; intros H; try discriminate H; vm_compute; split; discriminate. Qed.

Lemma digits_val_acc_nonneg (k : str) : forall acc,
  forallb is_digit k = true -> (0 <= acc)%Z ->
  (0 <= fold_left (fun a c => (10 * a + digit_val c)%Z) k acc)%Z.
Proof.
  induction k as [|c r IH]; intros acc; cbn [fold_left forallb]; [auto|].
  rewrite andb_true_iff. intros [Hc Hr] Ha. apply IH; [exact Hr|].
  pose proof (digit_val_range _ Hc). lia.
Qed.

Lemma price_of_text_digits (s : str) :
  let k := filter kept_in_price s in
  k <> [] -> forallb is_digit k = true -> (digits_val k < 2 ^ 53)%Z ->
  price_of_text s = Ok (digits_val k).
Proof.
  intros k Hne Hd Hlt. rewrite price_of_text_kept. fold k.
  destruct (is_empty k) eqn:E; [apply is_empty_iff in E; now destruct Hne|].
  unfold float_of_text, decimal_of_text. rewrite (span_digits_all _ Hd), E.
  cbn [bind]. change (10 ^ 0)%Z with 1%Z. apply binary64_of_integer.
  split; [|exact Hlt]. apply digits_val_acc_nonneg; [exact Hd | lia].
Qed.

Section ParsePrice.

Variable repr_other : json -> str.

Lemma parse_price_text v :
  match v with JNull | JBool _ | JInt _ | JFloat _ => False | _ => True end ->
  parse_price repr_other v = price_of_text (py_str repr_other v).
Proof. destruct v; simpl; tauto. Qed.


Lemma parse_price_raises v e :
  parse_price repr_other v = Raise e -> price_error e = true.
Proof.
  destruct v; try (rewrite parse_price_text by exact I; apply price_of_text_raises);
    simpl; try discriminate.
  apply int_of_float_raises.
Qed.

End ParsePrice.

(** C1 (fails in the code). [parse_price] raises on a text with two
    points or with a point and no digit, on a text of digits too large
    for a float, and on the numbers Infinity and NaN, which [json.load]
    accepts; [load_laptops] then raises as well. *)
Theorem parse_price_can_raise (repr_other : json -> str) :
  parse_price repr_other (JStr "1.2.3") = Raise (ValueError_float "1.2.3") /\
  parse_price repr_other (JStr "Rs.") = Raise (ValueError_float ".") /\
  parse_price repr_other (JStr (repeat "9"%char 400)) = Raise OverflowError /\
  parse_price repr_other (JFloat (S754_infinity false)) = Raise OverflowError /\
  parse_price repr_other (JFloat S754_nan) = Raise ValueError_nan /\
  load_laptops repr_other (Some (one_entry_file (JStr "1.2.3"))) initial
  = (Raise (ValueError_float "1.2.3"), initial).
Proof. repeat split; vm_compute; reflexivity. Qed.


(** ** The store *)

Lemma length_update h x f : List.length (update h x f) = List.length h.
Proof.
  revert x; induction h as [|r h IH]; intros [|x]; simpl; try reflexivity.
  now rewrite IH.
Qed.

Lemma get_update h x f y :
  get (update h x f) y =
  if (x =? y)%nat && (y <? List.length h)%nat then f (get h y) else get h y.
Proof.
  unfold get. revert x y; induction h as [|r h IH]; intros x y.
  - simpl. rewrite andb_false_r. now destruct y.
  - destruct x as [|x], y as [|y]; simpl; try reflexivity.
    rewrite IH. reflexivity.
Qed.

Lemma length_set_pic_urls l h :
  List.length (fold_left set_pic_urls l h) = List.length h.
Proof.
  revert h; induction l as [|x l IH]; intros h; simpl; [reflexivity|].
  rewrite IH. apply length_update.
Qed.

Lemma with_pic_urls_idem r : with_pic_urls (with_pic_urls r) = with_pic_urls r.
Proof. reflexivity. Qed.

Lemma core_with_pic_urls r : core (with_pic_urls r) = core r.
Proof. reflexivity. Qed.

(** The loop of [home] in closed form. *)
Lemma get_set_pic_urls l h y :
  get (fold_left set_pic_urls l h) y =
  if existsb (Nat.eqb y) l && (y <? List.length h)%nat
  then with_pic_urls (get h y) else get h y.
Proof.
  revert h; induction l as [|x l IH]; intros h; simpl; [reflexivity|].
  rewrite IH. unfold set_pic_urls at 1 2 3. rewrite length_update, get_update.
  rewrite (Nat.eqb_sym y x).
  destruct (x =? y)%nat; simpl; [|reflexivity].
  destruct (y <? List.length h)%nat; simpl.
  - rewrite with_pic_urls_idem. now destruct (existsb (Nat.eqb y) l).
  - now rewrite andb_false_r.
Qed.

Lemma get_alloc_old h rs x :
  x < List.length h -> get (snd (alloc h rs)) x = get h x.
Proof. intros H. unfold get, alloc. simpl. now apply app_nth1. Qed.

Lemma get_app_seq h rs :
  map (get (h ++ rs)) (seq (List.length h) (List.length rs)) = rs.
Proof.
  unfold get. revert h; induction rs as [|r rs IH]; intros h; [reflexivity|].
  simpl. rewrite nth_middle. f_equal.
  specialize (IH (h ++ [r])).
  rewrite length_app, Nat.add_1_r, <- app_assoc in IH. exact IH.
Qed.

Lemma get_alloc_new h rs :
  map (get (snd (alloc h rs))) (fst (alloc h rs)) = rs.
Proof. apply get_app_seq. Qed.

(** ** The loop of load_laptops *)

Lemma dicts_In idx data i row :
  In (i, row) (dicts idx data) <->
  idx <= i /\ nth_error data (i - idx) = Some (JDict row).
Proof.
  revert idx; induction data as [|v data IH]; intros idx.
  - simpl. split; [intros [] | intros [_ H]; destruct (i - idx); discriminate].
  - assert (Tail : In (i, row) (dicts (S idx) data) <->
                   idx < i /\ nth_error (v :: data) (i - idx) = Some (JDict row)).
    { rewrite IH. split; intros [H1 H2]; (split; [lia|]).
      - replace (i - idx) with (S (i - S idx)) by lia. exact H2.
      - replace (i - idx) with (S (i - S idx)) in H2 by lia. exact H2. }
    assert (Head : i = idx ->
                   nth_error (v :: data) (i - idx) = Some (JDict row) <-> v = JDict row).
    { intros ->. rewrite Nat.sub_diag. simpl. split; congruence. }
    destruct (Nat.eq_dec i idx) as [E|E].
    + rewrite (and_comm (idx <= i)), (Head E).
      destruct v; simpl dicts; try (rewrite Tail; split; [lia | intros [? _]; discriminate]).
      simpl In. rewrite Tail. subst i. split.
      * intros [H|H]; [|lia]. split; [congruence | lia].
      * intros [H _]. left. congruence.
    + assert (R : In (i, row) (dicts idx (v :: data)) <->
                  In (i, row) (dicts (S idx) data)).
      { destruct v; simpl; try tauto. split; [|tauto].
        intros [H|H]; [|exact H]. congruence. }
      rewrite R, Tail. split; intros [H1 H2]; (split; [lia | exact H2]).
Qed.

Lemma dicts_ge idx data e : In e (dicts idx data) -> idx <= fst e.
Proof. destruct e as [i row]. intros H. now apply dicts_In in H. Qed.

Lemma dicts_NoDup idx data : NoDup (map fst (dicts idx data)).
Proof.
  revert idx; induction data as [|v data IH]; intros idx; [constructor|].
  destruct v; simpl; try apply IH.
  constructor; [|apply IH].
  intros H. apply in_map_iff in H. destruct H as [e [He Hin]].
  apply dicts_ge in Hin. lia.
Qed.

Lemma map_result_Ok {A B} (f : A -> result B) l bs :
  map_result f l = Ok bs -> Forall2 (fun a b => f a = Ok b) l bs.
Proof.
  revert bs; induction l as [|a l IH]; intros bs; simpl.
  - intros H. injection H as <-. constructor.
  - destruct (f a) as [b|e] eqn:Ha; simpl; [|discriminate].
    destruct (map_result f l) as [bs'|e]; simpl; [|discriminate].
    intros H. injection H as <-. constructor; [exact Ha | now apply IH].
Qed.

Section LoaderFacts.

Variable repr_other : json -> str.

Lemma build_item_Ok idx row r :
  build_item repr_other idx row = Ok r ->
  name r = entry_name repr_other idx row /\
  id r = slugify (name r) ++ "-" ++ str_of_nat (idx + 1) /\
  parse_price repr_other (entry_price row) = Ok (price r) /\
  pic_urls r = None.
Proof.
  unfold build_item, entry_name, entry_price.
  destruct (parse_price repr_other (dict_get row "price" (JInt 0))) as [z|e];
    simpl; [|discriminate].
  intros H. injection H as <-. simpl. repeat split.
Qed.

(** The loop builds one record for each dict of the list, from the dict
    and its index, in the order of the list; the other entries are
    passed over. *)
Lemma build_items_dicts idx data :
  build_items repr_other idx data =
  map_result (fun e => build_item repr_other (fst e) (snd e)) (dicts idx data).
Proof.
  revert idx; induction data as [|v data IH]; intros idx; [reflexivity|].
  destruct v; simpl; rewrite IH; reflexivity.
Qed.

Lemma build_items_entries idx data rs :
  build_items repr_other idx data = Ok rs ->
  Forall2 (fun e r => build_item repr_other (fst e) (snd e) = Ok r) (dicts idx data) rs.
Proof. rewrite build_items_dicts. apply map_result_Ok. Qed.

Lemma build_items_ids idx data rs :
  build_items repr_other idx data = Ok rs -> NoDup (map id rs).
Proof.
  intros H. apply build_items_entries in H.
  apply NoDup_map_inv with (f := after_last_hyphen). rewrite map_map.
  assert (E : map (fun r => after_last_hyphen (id r)) rs =
              map (fun i => str_of_nat (i + 1)) (map fst (dicts idx data))).
  { induction H as [|e r es rs' He _ IH]; simpl; [reflexivity|].
    rewrite IH. f_equal. apply build_item_Ok in He. destruct He as (_ & -> & _).
    apply after_last_hyphen_app, digits_no_hyphen, str_of_nat_digits. }
  rewrite E. apply Finite.Injective_map_NoDup; [|apply dicts_NoDup].
  intros i j Hij. apply str_of_nat_inj in Hij. lia.
Qed.

Lemma build_items_raises idx data e :
  build_items repr_other idx data = Raise e -> price_error e = true.
Proof.
  revert idx; induction data as [|v data IH]; intros idx; [discriminate|].
  destruct v; simpl; try apply IH.
  unfold build_item.
  destruct (parse_price repr_other _) as [z|e'] eqn:Hp; simpl.
  - destruct (build_items repr_other (S idx) data) as [rs|e'] eqn:Hb; simpl;
      [discriminate|].
    intros H. injection H as <-. eapply IH, Hb.
  - intros H. injection H as <-. eapply parse_price_raises, Hp.
Qed.

End LoaderFacts.

(** ** Catalogues *)

Lemma map_core_price a b : map core a = map core b -> map price a = map price b.
Proof.
  intros H. apply (f_equal (map (fun c => snd (fst (fst c))))) in H.
  now rewrite !map_map in H.
Qed.

Lemma map_core_id a b : map core a = map core b -> map id a = map id b.
Proof.
  intros H. apply (f_equal (map (fun c => fst (fst (fst (fst c)))))) in H.
  now rewrite !map_map in H.
Qed.

Lemma sorted_map_price l :
  StronglySorted price_le l <-> StronglySorted Z.le (map price l).
Proof.
  induction l as [|a l IH]; simpl; split; intros H; try constructor;
    inversion H as [|? ? Hs Hf]; subst.
  - now apply IH.
  - apply Forall_map. exact Hf.
  - now apply IH.
  - rewrite Forall_map in Hf. exact Hf.
Qed.

Lemma cons_eq_inv {A} (a b : A) l l' : a :: l = b :: l' -> a = b /\ l = l'.
Proof. intros H. now injection H. Qed.

Lemma map_core_filter p a : forall b,
  map core a = map core b ->
  map core (filter (priced p) a) = map core (filter (priced p) b).
Proof.
  induction a as [|x a IH]; intros [|y b] H; simpl in *; try discriminate; [reflexivity|].
  apply cons_eq_inv in H. destruct H as [Hxy Hab].
  assert (E : priced p x = priced p y)
    by (unfold priced; now replace (price y) with (price x) by (unfold core in Hxy; congruence)).
  rewrite E. destruct (priced p y); simpl; [f_equal; [exact Hxy|] |]; now apply IH.
Qed.

Section Catalogue.

Variable repr_other : json -> str.

Lemma loaded_from_sorted data rs :
  loaded_from repr_other data rs -> StronglySorted price_le rs.
Proof.
  intros (built & _ & H). apply sorted_map_price.
  rewrite (map_core_price _ _ H). apply sorted_map_price, sort_by_price_sorted.
Qed.

Lemma loaded_from_stable data rs built p :
  build_items repr_other 0 data = Ok built ->
  loaded_from repr_other data rs ->
  map core (filter (priced p) rs) = map core (filter (priced p) built).
Proof.
  intros Hb (built' & Hb' & H). assert (built' = built) by congruence. subst.
  rewrite (map_core_filter p _ _ H). now rewrite sort_by_price_stable.
Qed.

Lemma loaded_from_ids data rs : loaded_from repr_other data rs -> NoDup (map id rs).
Proof.
  intros (built & Hb & H). rewrite (map_core_id _ _ H).
  eapply Permutation_NoDup.
  - apply Permutation_map, sort_by_price_perm.
  - eapply build_items_ids, Hb.
Qed.

Lemma built_from_core data r r' : core r = core r' -> built_from repr_other data r' -> built_from repr_other data r.
Proof.
  unfold core. intros H (i & row & H1 & H2 & H3 & H4). exists i, row.
  repeat split; [exact H1 | congruence | congruence | congruence].
Qed.

Lemma loaded_from_built data rs : loaded_from repr_other data rs -> Forall (built_from repr_other data) rs.
Proof.
  intros (built & Hb & H).
  assert (G : forall es bs,
             Forall2 (fun e r => build_item repr_other (fst e) (snd e) = Ok r) es bs ->
             (forall e, In e es -> nth_error data (fst e) = Some (JDict (snd e))) ->
             Forall (built_from repr_other data) bs).
  { induction 1 as [|e r es rs' He _ IH]; intros D; constructor.
    - apply build_item_Ok in He. destruct He as (Hn & Hi & Hp & _).
      exists (fst e), (snd e). split; [apply D; now left|]. split; [exact Hn|].
      split; [now rewrite <- slugify_slug_of_name | exact Hp].
    - apply IH. intros e' He'. apply D. now right. }
  assert (B : Forall (built_from repr_other data) built).
  { apply (G (dicts 0 data)); [now apply build_items_entries|].
    intros [i row] He. apply dicts_In in He. rewrite Nat.sub_0_r in He. apply He. }
  assert (S : Forall (built_from repr_other data) (sort_by_price built))
    by (eapply Permutation_Forall; [apply sort_by_price_perm | exact B]).
  clear G B Hb. revert H S. generalize (sort_by_price built) as l.
  induction rs as [|r rs IH]; intros [|r' l] H S; simpl in H; try discriminate; constructor.
  - apply cons_eq_inv in H. destruct H as [H _].
    inversion S; subst. eapply built_from_core; eassumption.
  - apply cons_eq_inv in H. destruct H as [_ H].
    inversion S; subst. eapply IH; eassumption.
Qed.

Lemma cache_ok_initial : cache_ok repr_other initial.
Proof. split; [constructor|]. exists []. exists []. split; reflexivity. Qed.

Lemma load_laptops_cases d st : load_case repr_other d st (load_laptops repr_other d st).
Proof.
  unfold load_laptops. destruct d as [f|]; [|now constructor].
  destruct (cache_hit (cache st) (st_mtime f)) eqn:Hh; [now econstructor|].
  destruct (content f) as [v|] eqn:Hc; [|now econstructor].
  destruct v; try (eapply load_not_list; try eassumption; try reflexivity; congruence).
  destruct (build_items repr_other 0 l) as [built|e] eqn:Hb.
  - eapply load_fresh; try eassumption; reflexivity.
  - eapply load_bad_entry; try eassumption; reflexivity.
Qed.

Lemma cache_hit_iff c m :
  cache_hit c m = true <-> mtime c = Some m /\ items c <> [].
Proof.
  unfold cache_hit. destruct (mtime c) as [m'|].
  - rewrite andb_true_iff, Z.eqb_eq. destruct (items c); simpl; split.
    + intros [_ H]; discriminate.
    + intros [_ H]. now destruct H.
    + intros [-> _]. split; [reflexivity | discriminate].
    + intros [H _]. split; [congruence | reflexivity].
  - split; [discriminate | intros [H _]; discriminate].
Qed.

End Catalogue.

(** ** The service, state by state *)

Section Service.

Variable repr_other : json -> str.

Lemma loaded_from_core data rs rs' :
  map core rs = map core rs' ->
  loaded_from repr_other data rs' -> loaded_from repr_other data rs.
Proof. intros H (built & Hb & H'). exists built. split; congruence. Qed.

Lemma alloc_fresh h rs : Forall (fun x => List.length h <= x) (fst (alloc h rs)).
Proof. apply Forall_forall. intros x Hx. apply in_seq in Hx. lia. Qed.

Lemma alloc_valid h rs :
  Forall (fun x => x < List.length (snd (alloc h rs))) (fst (alloc h rs)).
Proof.
  apply Forall_forall. intros x Hx. apply in_seq in Hx.
  unfold alloc; simpl. rewrite length_app. lia.
Qed.

Lemma load_cache_ok d st :
  cache_ok repr_other st -> cache_ok repr_other (snd (load_laptops repr_other d st)).
Proof.
  intros H. destruct (load_laptops_cases repr_other d st); try exact H.
  split; cbn [snd store cache items].
  - apply alloc_valid.
  - exists data, built. split; [assumption|].
    unfold snapshot; cbn [store cache items]. now rewrite get_alloc_new.
Qed.

(** The list [load_laptops] returns is the list the cache holds
    afterwards. *)
Lemma load_returns_cache d st locs st' :
  load_laptops repr_other d st = (Ok locs, st') -> items (cache st') = locs.
Proof.
  intros H. destruct (load_laptops_cases repr_other d st);
    try discriminate; injection H as <- <-; reflexivity.
Qed.

(** Loading leaves the records of the store as they are. *)
Lemma load_store_old d st x :
  x < List.length (store st) ->
  get (store (snd (load_laptops repr_other d st))) x = get (store st) x.
Proof.
  intros H. destruct (load_laptops_cases repr_other d st); try reflexivity.
  cbn [snd store]. now apply get_alloc_old.
Qed.

Lemma load_cache_fresh d st :
  cache (snd (load_laptops repr_other d st)) = cache st \/
  Forall (fun x => List.length (store st) <= x)
         (items (cache (snd (load_laptops repr_other d st)))).
Proof.
  destruct (load_laptops_cases repr_other d st); try (left; reflexivity).
  right. cbn [snd cache items]. apply alloc_fresh.
Qed.

(** A route changes nothing but, for the listing, the key "pic_urls". *)
Lemma serve_after_load d r st :
  let st1 := snd (load_laptops repr_other d st) in
  let st' := snd (serve repr_other d r st) in
  cache st' = cache st1 /\
  List.length (store st') = List.length (store st1) /\
  forall x, core (get (store st') x) = core (get (store st1) x).
Proof.
  destruct r as [min_price max_price min max q | item_id | min_price max_price q];
    cbn [serve]; unfold home, product_page, api_laptops;
    destruct (load_laptops repr_other d st) as [[locs|e] st1]; cbn [snd];
    try (repeat split; reflexivity).
  - cbn [store cache]. split; [reflexivity|]. split; [apply length_set_pic_urls|].
    intros x. rewrite get_set_pic_urls.
    destruct (_ && _); [apply core_with_pic_urls | reflexivity].
  - destruct (find _ locs); cbn [snd]; repeat split; reflexivity.
Qed.

Lemma serve_cache_ok d r st :
  cache_ok repr_other st -> cache_ok repr_other (snd (serve repr_other d r st)).
Proof.
  intros H. apply (load_cache_ok d) in H.
  destruct (serve_after_load d r st) as (Hc & Hl & Hg).
  destruct H as [Hv (data & Hd)]. split.
  - rewrite Hc, Hl. exact Hv.
  - exists data. eapply loaded_from_core; [|exact Hd].
    unfold snapshot. rewrite Hc, !map_map. apply map_ext. intros x. apply Hg.
Qed.

Lemma reachable_cache_ok st : reachable repr_other st -> cache_ok repr_other st.
Proof.
  induction 1.
  - apply cache_ok_initial.
  - now apply load_cache_ok.
  - now apply serve_cache_ok.
Qed.

(** Whatever [load_laptops] returns is the catalogue of a list, which
    is the list in the file whenever the file is read. *)
Lemma load_Ok_loaded st d locs st' :
  reachable repr_other st ->
  load_laptops repr_other d st = (Ok locs, st') ->
  exists data,
    loaded_from repr_other data (map (get (store st')) locs) /\
    (forall f, d = Some f -> cache_hit (cache st) (st_mtime f) = false ->
               content f = Some (JList data)).
Proof.
  intros Hr H.
  pose proof (load_cache_ok d (reachable_cache_ok Hr)) as Hok.
  pose proof (load_returns_cache _ _ H) as Hi.
  rewrite H in Hok. cbn [snd] in Hok. destruct Hok as [_ (data & Hd)].
  unfold snapshot in Hd. rewrite Hi in Hd.
  destruct (load_laptops_cases repr_other d st) as [| f | | | | f data' built Hf Hh Hc Hb];
    try discriminate.
  - exists data. split; [exact Hd|]. intros f' Hf' Hm. congruence.
  - injection H as <- <-. exists data'. split.
    + exists built. split; [exact Hb|]. cbn [store]. now rewrite get_app_seq.
    + intros f' Hf' _. congruence.
Qed.

(** C3. The sequence [load_laptops] returns is in ascending order of
    price, and records of one price are in the order of their entries
    in the list they were loaded from, which is the list in the file
    whenever the file is read.  [built] is the records of the dicts of
    that list in the order of the list; the sequence returned has the
    same records, and at each price the same records in the same
    order. *)
Theorem loaded_catalog_sorted_stable st d locs st' :
  reachable repr_other st ->
  load_laptops repr_other d st = (Ok locs, st') ->
  let rs := map (get (store st')) locs in
  StronglySorted price_le rs /\
  exists data built,
    build_items repr_other 0 data = Ok built /\
    Forall2 (fun e r => build_item repr_other (fst e) (snd e) = Ok r)
            (dicts 0 data) built /\
    Permutation (map core rs) (map core built) /\
    (forall p, map core (filter (priced p) rs) = map core (filter (priced p) built)) /\
    (forall f, d = Some f -> cache_hit (cache st) (st_mtime f) = false ->
               content f = Some (JList data)).
Proof.
  intros Hr H rs. destruct (@load_Ok_loaded _ _ _ _ Hr H) as (data & Hd & Hf).
  split; [eapply loaded_from_sorted; exact Hd|].
  destruct Hd as (built & Hb & Hc). exists data, built.
  split; [exact Hb|]. split; [now apply build_items_entries|].
  split; [|split; [|exact Hf]].
  - fold rs in Hc. rewrite Hc. apply Permutation_map, Permutation_sym, sort_by_price_perm.
  - intros p. eapply loaded_from_stable; [exact Hb|]. exists built. now split.
Qed.

(** C4. The identifiers of the sequence [load_laptops] returns are
    pairwise distinct, and each record comes from a dict of the list
    loaded, at some index [i]: its identifier is its name in lower case
    with each run of characters other than letters and digits replaced
    by one hyphen and the hyphens at both ends removed ("item" when
    nothing is left), then a hyphen and [i + 1]. *)
Theorem loaded_catalog_ids st d locs st' :
  reachable repr_other st ->
  load_laptops repr_other d st = (Ok locs, st') ->
  let rs := map (get (store st')) locs in
  NoDup (map id rs) /\
  exists data,
    Forall (fun r => exists i row,
              nth_error data i = Some (JDict row) /\
              name r = entry_name repr_other i row /\
              id r = slug_of_name (name r) ++ "-" ++ str_of_nat (i + 1)) rs /\
    (forall f, d = Some f -> cache_hit (cache st) (st_mtime f) = false ->
               content f = Some (JList data)).
Proof.
  intros Hr H rs. destruct (@load_Ok_loaded _ _ _ _ Hr H) as (data & Hd & Hf).
  split; [eapply loaded_from_ids; exact Hd|].
  exists data. split; [|exact Hf].
  eapply Forall_impl; [|apply (loaded_from_built Hd)].
  intros r (i & row & H1 & H2 & H3 & _). now exists i, row.
Qed.

End Service.

(** ** Prices, records and the cache *)

Section Claims.

Variable repr_other : json -> str.


(** C5 (as amended). No request changes the id, name, price, pics or
    description of a record of the store; the product page and the
    JSON endpoint change nothing after loading; the listing route sets
    the key "pic_urls" of every record it lists, in the store itself,
    and changes no other record; loading changes no record, and the
    cache is either kept or replaced by a list of new records. *)
Theorem records_after_request d r st :
  reachable repr_other st ->
  let st1 := snd (load_laptops repr_other d st) in
  let st' := snd (serve repr_other d r st) in
  (forall x, x < List.length (store st) ->
             core (get (store st') x) = core (get (store st) x)) /\
  match r with GetHome _ _ _ _ _ => True | _ => st' = st1 end /\
  (forall listed emin emax,
     fst (serve repr_other d r st) = Ok (Listing listed emin emax) ->
     forall x, get (store st') x =
               if existsb (Nat.eqb x) listed
               then with_pic_urls (get (store st1) x) else get (store st1) x) /\
  (forall x, x < List.length (store st) -> get (store st1) x = get (store st) x) /\
  cache st' = cache st1 /\
  (cache st1 = cache st \/
   Forall (fun x => List.length (store st) <= x) (items (cache st1))).
Proof.
  intros Hr st1 st'.
  destruct (@serve_after_load repr_other d r st) as (Hc & Hl & Hg). fold st1 st' in Hc, Hl, Hg.
  split; [|split; [|split; [|split; [|split]]]].
  - intros x Hx. rewrite Hg. unfold st1. now rewrite load_store_old.
  - subst st1 st'.
    destruct r as [? ? ? ? ? | item_id | ? ? ?]; [exact I | |]; cbn [serve];
      unfold product_page, api_laptops;
      destruct (load_laptops repr_other d st) as [[locs|e] s1]; cbn [snd]; try reflexivity.
    destruct (find _ locs); reflexivity.
  - intros listed emin emax Hs x.
    pose proof (@load_cache_ok repr_other d st (@reachable_cache_ok repr_other st Hr)) as [Hv _]. fold st1 in Hv.
    subst st1 st'.
    destruct r as [min_price max_price min max q | item_id | ? ? ?]; cbn [serve] in *.
    + unfold home in *.
      destruct (load_laptops repr_other d st) as [[locs|e] s1] eqn:Hload;
        cbn [fst snd] in *; [|discriminate].
      injection Hs as <- _ _. cbn [store]. rewrite get_set_pic_urls.
      destruct (existsb (Nat.eqb x) _) eqn:Hex; [|reflexivity].
      apply existsb_exists in Hex. destruct Hex as (y & Hy & Exy).
      apply Nat.eqb_eq in Exy. subst y. apply filter_laptops_incl in Hy.
      rewrite <- (@load_returns_cache repr_other _ _ _ _ Hload) in Hy.
      rewrite Forall_forall in Hv. apply Hv in Hy.
      apply Nat.ltb_lt in Hy. now rewrite Hy.
    + unfold product_page in Hs.
      destruct (load_laptops repr_other d st) as [[locs|e] s1]; cbn [fst] in Hs;
        [|discriminate].
      destruct (find _ locs); discriminate.
    + unfold api_laptops in Hs.
      destruct (load_laptops repr_other d st) as [[locs|e] s1]; discriminate.
  - intros x Hx. unfold st1. now apply load_store_old.
  - exact Hc.
  - apply load_cache_fresh.
Qed.

(** C8. [load_laptops] raises MissingDataFile exactly when the file
    does not exist, and MalformedData exactly when it parses the file
    and the value obtained is not a list; when the value is a list, the
    outcome is that of building one record for each dict of the list,
    from the dict and its index, and an entry that is not a dict adds
    neither a record nor an error. *)
Theorem load_laptops_errors d st :
  (fst (load_laptops repr_other d st) = Raise MissingDataFile <-> d = None) /\
  (fst (load_laptops repr_other d st) = Raise MalformedData <->
   exists f v, d = Some f /\ cache_hit (cache st) (st_mtime f) = false /\
               content f = Some v /\ forall data, v <> JList data) /\
  (forall f data,
     d = Some f -> cache_hit (cache st) (st_mtime f) = false ->
     content f = Some (JList data) ->
     match map_result (fun e => build_item repr_other (fst e) (snd e)) (dicts 0 data) with
     | Ok built =>
         exists locs st',
           load_laptops repr_other d st = (Ok locs, st') /\
           map (get (store st')) locs = sort_by_price built
     | Raise e => load_laptops repr_other d st = (Raise e, st)
     end) /\
  (forall data i row,
     In (i, row) (dicts 0 data) <-> nth_error data i = Some (JDict row)) /\
  (forall idx v rest,
     (forall row, v <> JDict row) ->
     build_items repr_other idx (v :: rest) = build_items repr_other (S idx) rest).
Proof.
  split; [|split; [|split; [|split]]].
  - destruct (load_laptops_cases repr_other d st) as
      [ | f Hf | f Hf | f v Hf | f data e Hf Hh Hc Hb | f data built Hf];
      cbn [fst]; subst d; split; try discriminate; try reflexivity.
    intros H. injection H as ->. apply build_items_raises in Hb. discriminate.
  - destruct (load_laptops_cases repr_other d st) as
      [ Hd | f Hf Hh | f Hf Hh Hc | f v Hf Hh Hc Hv
      | f data e Hf Hh Hc Hb | f data built Hf Hh Hc Hb];
      cbn [fst].
    + split; [discriminate|]. intros (f' & v' & Hf' & _). congruence.
    + split; [discriminate|]. intros (f' & v' & Hf' & Hh' & _). congruence.
    + split; [discriminate|]. intros (f' & v' & Hf' & _ & Hc' & _). congruence.
    + split; [intros _; now exists f, v | reflexivity].
    + split.
      * intros H. injection H as ->. apply build_items_raises in Hb. discriminate.
      * intros (f' & v' & Hf' & _ & Hc' & Hv').
        assert (v' = JList data) by congruence. subst v'. now destruct (Hv' data).
    + split; [discriminate|].
      intros (f' & v' & Hf' & _ & Hc' & Hv').
      assert (v' = JList data) by congruence. subst v'. now destruct (Hv' data).
  - intros f data -> Hh Hc. rewrite <- build_items_dicts.
    unfold load_laptops. rewrite Hh, Hc.
    destruct (build_items repr_other 0 data) as [built|e]; [|reflexivity].
    eexists _, _. split; [reflexivity|]. cbn [store]. apply get_app_seq.
  - intros data i row. rewrite dicts_In, Nat.sub_0_r. split; [tauto|].
    intros H. split; [lia | exact H].
  - intros idx v rest Hv. destruct v; try reflexivity. now destruct (Hv kv).
Qed.

(** C9. When the file exists: if its modification time is the cached
    one and the cached list is not empty, [load_laptops] returns the
    cached list and leaves the state as it is, whatever the file
    contains; otherwise it reads the file, and if that succeeds it
    returns the sorted records of the file, as new objects, and stores
    the modification time and the list in the cache (if it raises, the
    state is left as it is). *)
Theorem load_laptops_cache_contract f st :
  (mtime (cache st) = Some (st_mtime f) /\ items (cache st) <> [] ->
   forall c,
     load_laptops repr_other (Some {| st_mtime := st_mtime f; content := c |}) st
     = (Ok (items (cache st)), st)) /\
  (mtime (cache st) <> Some (st_mtime f) \/ items (cache st) = [] ->
   match content f with
   | Some (JList data) =>
       match build_items repr_other 0 data with
       | Ok built =>
           exists locs st',
             load_laptops repr_other (Some f) st = (Ok locs, st') /\
             map (get (store st')) locs = sort_by_price built /\
             Forall (fun x => List.length (store st) <= x) locs /\
             cache st' = {| mtime := Some (st_mtime f); items := locs |}
       | Raise e => load_laptops repr_other (Some f) st = (Raise e, st)
       end
   | Some _ => load_laptops repr_other (Some f) st = (Raise MalformedData, st)
   | None => load_laptops repr_other (Some f) st = (Raise JSONDecodeError, st)
   end).
Proof.
  split.
  - intros H c. apply cache_hit_iff in H. unfold load_laptops. cbn [st_mtime].
    now rewrite H.
  - intros H.
    assert (Hh : cache_hit (cache st) (st_mtime f) = false).
    { destruct (cache_hit (cache st) (st_mtime f)) eqn:E; [|reflexivity].
      apply cache_hit_iff in E. tauto. }
    unfold load_laptops. rewrite Hh.
    destruct (content f) as [v|]; [|reflexivity].
    destruct v; try reflexivity.
    destruct (build_items repr_other 0 l) as [built|e]; [|reflexivity].
    eexists _, _. split; [reflexivity|]. cbn [store cache].
    split; [apply get_app_seq|]. split; [apply alloc_fresh | reflexivity].
Qed.

End Claims.

(** ** The claims on the sample file *)

Lemma sample_loaded :
  load_laptops repr_blank (Some sample_file) initial = (Ok [0; 1; 2; 3; 4], sample_state).
Proof. vm_compute. reflexivity. Defined.

Lemma sample_reachable : reachable repr_blank sample_state.
Proof. exact (reach_load (Some sample_file) (reach_initial repr_blank)). Defined.


Lemma loaded_catalog_sorted_stable_witness :
  StronglySorted price_le (map (get (store sample_state)) [0; 1; 2; 3; 4]).
Proof.
  exact (proj1 (@loaded_catalog_sorted_stable repr_blank initial (Some sample_file)
                  [0; 1; 2; 3; 4] sample_state (reach_initial repr_blank) sample_loaded)).
Defined.

Lemma loaded_catalog_ids_witness :
  NoDup (map id (map (get (store sample_state)) [0; 1; 2; 3; 4])).
Proof.
  exact (proj1 (@loaded_catalog_ids repr_blank initial (Some sample_file)
                  [0; 1; 2; 3; 4] sample_state (reach_initial repr_blank) sample_loaded)).
Defined.

(** The claim C5 fails: the listing route, served from the cached
    snapshot, leaves its first record with a key it did not have. *)
Lemma listing_changes_cached_record :
  let st' :=
    snd (serve repr_blank (Some sample_file) (GetHome None None None None None) sample_state) in
  cache st' = cache sample_state /\
  In 0 (items (cache sample_state)) /\
  pic_urls (get (store sample_state) 0) = None /\
  pic_urls (get (store st') 0) = Some [placeholder_160] /\
  get (store st') 0 <> get (store sample_state) 0.
Proof.
  vm_compute. split; [reflexivity|]. split; [now left|]. split; [reflexivity|].
  split; [reflexivity|]. discriminate.
Qed.

Lemma records_after_request_witness :
  let st' :=
    snd (serve repr_blank (Some sample_file) (GetHome (Some 50000%Z) None None None None)
           sample_state) in
  core (get (store st') 1) = core (get (store sample_state) 1) /\
  get (store st') 1 = with_pic_urls (get (store sample_state) 1) /\
  get (store st') 0 = get (store sample_state) 0.
Proof.
  intros st'.
  destruct (@records_after_request repr_blank (Some sample_file)
              (GetHome (Some 50000%Z) None None None None) sample_state sample_reachable)
    as (Hcore & _ & Hset & _).
  split; [apply Hcore; vm_compute; lia|].
  split; [exact (Hset [1; 2; 3; 4] (Some 50000%Z) None eq_refl 1)
         | exact (Hset [1; 2; 3; 4] (Some 50000%Z) None eq_refl 0)].
Defined.

Lemma normalize_range_value_spec_witness :
  normalize_range_value (Some 50%Z) = Some 50000%Z /\
  normalize_range_value (Some 1000%Z) = Some 1000%Z /\
  fst (home repr_blank (Some sample_file) (Some 100000%Z) None (Some 50%Z) None None initial)
  = Ok (Listing [1; 2; 3; 4] (Some 50000%Z) None).
Proof.
  destruct (normalize_range_value_spec repr_blank (Some sample_file) initial
              (Some 100000%Z) None (Some 50%Z) None None) as (_ & H1 & H2 & H3).
  split; [apply H1; lia|]. split; [apply H2; lia|].
  exact (H3 _ _ sample_loaded).
Defined.

Lemma api_does_not_normalize_witness :
  fst (api_laptops repr_blank (Some sample_file) (Some 70%Z) None None initial)
  = Ok (ApiLaptops 5 [0; 1; 2; 3; 4]) /\
  fst (home repr_blank (Some sample_file) (Some 70%Z) None None None None initial)
  = Ok (Listing [3; 4] (Some 70000%Z) None) /\
  fst (api_laptops repr_blank (Some sample_file) (Some 70%Z) (Some 100000%Z)
         (Some ("hp" : str)) initial)
  = Ok (ApiLaptops 2 [1; 2]).
Proof.
  destruct (@api_does_not_normalize repr_blank (Some sample_file) initial _ _ sample_loaded)
    as (_ & Hapi & Hhome & _).
  split; [exact (Hapi (Some 70%Z) None None)|].
  split; [exact (Hhome (Some 70%Z) None None None None)|].
  exact (Hapi (Some 70%Z) (Some 100000%Z) (Some (list_ascii_of_string "hp"))).
Defined.

Lemma load_laptops_errors_witness :
  fst (load_laptops repr_blank None initial) = Raise MissingDataFile /\
  fst (load_laptops repr_blank
         (Some {| st_mtime := 1700000000; content := Some (JDict []) |}) initial)
  = Raise MalformedData.
Proof.
  split.
  - apply (proj1 (load_laptops_errors repr_blank None initial)). reflexivity.
  - apply (proj1 (proj2 (load_laptops_errors repr_blank _ initial))).
    exists {| st_mtime := 1700000000; content := Some (JDict []) |}, (JDict []).
    split; [reflexivity|]. split; [reflexivity|]. split; [reflexivity|].
    intros data. discriminate.
Defined.

Lemma load_laptops_cache_contract_witness :
  load_laptops repr_blank (Some {| st_mtime := 1700000000; content := None |}) sample_state
  = (Ok [0; 1; 2; 3; 4], sample_state).
Proof.
  refine (proj1 (load_laptops_cache_contract repr_blank sample_file sample_state) _ None).
  split; [reflexivity | discriminate].
Defined.



(** * Part IV: further properties of the program *)

(** ** strip *)

Section StripFacts.

Variable p : ascii -> bool.

Lemma lstrip_by_idem (s : str) : lstrip_by p (lstrip_by p s) = lstrip_by p s.
Proof.
  induction s as [|c r IH]; simpl; [reflexivity|].
  destruct (p c) eqn:Hc; [exact IH | simpl; now rewrite Hc].
Qed.

Lemma rstrip_by_idem (s : str) : rstrip_by p (rstrip_by p s) = rstrip_by p s.
Proof. unfold rstrip_by. now rewrite rev_involutive, lstrip_by_idem. Qed.

Lemma strip_by_idem (s : str) : strip_by p (strip_by p s) = strip_by p s.
Proof.
  unfold strip_by. rewrite (strip_by_comm p (lstrip_by p s)).
  now rewrite lstrip_by_idem, rstrip_by_idem.
Qed.

Lemma lstrip_by_none (s : str) :
  forallb (fun c => negb (p c)) s = true -> lstrip_by p s = s.
Proof.
  destruct s as [|c r]; simpl; [reflexivity|].
  rewrite andb_true_iff. intros [Hc _]. apply negb_true_iff in Hc. now rewrite Hc.
Qed.

Lemma strip_by_none (s : str) :
  forallb (fun c => negb (p c)) s = true -> strip_by p s = s.
Proof.
  intros H. unfold strip_by, rstrip_by. rewrite (lstrip_by_none _ H).
  rewrite lstrip_by_none; [apply rev_involutive|].
  now rewrite forallb_rev.
Qed.

Lemma lstrip_by_nil_iff (s : str) : lstrip_by p s = [] <-> forallb p s = true.
Proof.
  induction s as [|c r IH]; simpl; [tauto|].
  destruct (p c); simpl; [exact IH|]. split; discriminate.
Qed.

Lemma forallb_lstrip_by (s : str) : forallb p (lstrip_by p s) = forallb p s.
Proof.
  induction s as [|c r IH]; simpl; [reflexivity|].
  destruct (p c) eqn:Hc; simpl; [exact IH | now rewrite Hc].
Qed.

Lemma strip_by_nil_iff (s : str) : strip_by p s = [] <-> forallb p s = true.
Proof.
  unfold strip_by, rstrip_by. split.
  - intros H. apply (f_equal (@rev ascii)) in H. rewrite rev_involutive in H.
    simpl in H. apply lstrip_by_nil_iff in H.
    now rewrite forallb_rev, forallb_lstrip_by in H.
  - intros H. apply lstrip_by_nil_iff in H. now rewrite H.
Qed.

Lemma lstrip_by_head (s : str) c r : lstrip_by p s = c :: r -> p c = false.
Proof.
  induction s as [|x s IH]; simpl; [discriminate|].
  destruct (p x) eqn:Hx; [exact IH|]. intros H. injection H as <- _. exact Hx.
Qed.

(** A stripped text has no character of [p] at its left end either. *)
Lemma strip_by_lstrip (s : str) : lstrip_by p (strip_by p s) = strip_by p s.
Proof.
  unfold strip_by. rewrite strip_by_comm. now rewrite lstrip_by_idem.
Qed.

Lemma strip_by_rstrip (s : str) : rstrip_by p (strip_by p s) = strip_by p s.
Proof. unfold strip_by. apply rstrip_by_idem. Qed.

(** A text that begins outside [p], followed by a text stripped on the
    right and not empty, is stripped. *)
Lemma strip_by_app (a b : str) c a' :
  a = c :: a' -> p c = false -> b <> [] -> rstrip_by p b = b ->
  strip_by p (a ++ b) = a ++ b.
Proof.
  intros -> Hc Hb Hr. unfold strip_by. simpl. rewrite Hc.
  change (c :: a' ++ b) with ((c :: a') ++ b).
  unfold rstrip_by in *. rewrite rev_app_distr, lstrip_by_app.
  assert (E : lstrip_by p (rev b) = rev b).
  { apply (f_equal (@rev ascii)) in Hr. now rewrite rev_involutive in Hr. }
  destruct (forallb p (rev b)) eqn:Hall.
  - apply lstrip_by_nil_iff in Hall. rewrite E in Hall.
    apply (f_equal (@rev ascii)) in Hall. rewrite rev_involutive in Hall.
    now destruct Hb.
  - rewrite E, rev_app_distr, !rev_involutive. reflexivity.
Qed.

End StripFacts.

(** ** resolve_pic_url *)

Lemma resolve_pic_url_cases (pic : str) :
  (strip pic = [] /\ resolve_pic_url pic = []) \/
  (strip pic <> [] /\ servable (strip pic) = true /\ resolve_pic_url pic = strip pic) \/
  (strip pic <> [] /\ servable (strip pic) = false /\
   resolve_pic_url pic = "/static/" ++ strip pic).
Proof.
  unfold resolve_pic_url, servable.
  destruct (strip pic) as [|c r] eqn:E; [left; now split|]. right.
  cbn [is_empty].
  destruct (startswith "http://" (c :: r) || startswith "https://" (c :: r)) eqn:H1.
  - left. split; [discriminate|]. split; reflexivity.
  - destruct (startswith "/" (c :: r)) eqn:H2.
    + left. split; [discriminate|]. split; reflexivity.
    + right. split; [discriminate|]. split; reflexivity.
Qed.

Lemma resolve_pic_url_facts (pic : str) :
  (resolve_pic_url pic = [] <-> forallb isspace pic = true) /\
  (resolve_pic_url pic = [] \/ servable (resolve_pic_url pic) = true) /\
  strip (resolve_pic_url pic) = resolve_pic_url pic.
Proof.
  destruct (resolve_pic_url_cases pic) as [[E ->] | [(N & S & ->) | (N & S & ->)]].
  - split; [|split].
    + split; [intros _; now apply strip_by_nil_iff | reflexivity].
    + now left.
    + reflexivity.
  - split; [|split].
    + split; [intros H; now destruct N|].
      intros H. apply strip_by_nil_iff in H. now destruct N.
    + now right.
    + apply strip_by_idem.
  - split; [|split].
    + split; [discriminate|].
      intros H. apply strip_by_nil_iff in H. now destruct N.
    + right. reflexivity.
    + unfold strip. eapply strip_by_app.
      * reflexivity.
      * reflexivity.
      * exact N.
      * apply strip_by_rstrip.
Qed.

(** X1. [resolve_pic_url] returns the empty text exactly for a blank
    reference; any other result begins with "http://", "https://" or
    "/"; and the result has no white space at either end. *)
Theorem resolve_pic_url_shape (pic : str) :
  (resolve_pic_url pic = [] <-> forallb isspace pic = true) /\
  (resolve_pic_url pic = [] \/ servable (resolve_pic_url pic) = true) /\
  strip (resolve_pic_url pic) = resolve_pic_url pic.
Proof. exact (resolve_pic_url_facts pic). Qed.

(** X2. Resolving a resolved reference changes nothing. *)
Theorem resolve_pic_url_idempotent (pic : str) :
  resolve_pic_url (resolve_pic_url pic) = resolve_pic_url pic.
Proof.
  destruct (resolve_pic_url_facts pic) as (_ & [E | S] & T).
  - rewrite E. reflexivity.
  - destruct (resolve_pic_url_cases (resolve_pic_url pic))
      as [[E ->] | [(N & S' & ->) | (N & S' & _)]].
    + now rewrite <- T.
    + exact T.
    + rewrite T in S'. congruence.
Qed.

(** ** normalize_pics *)

Section NormalizePics.

Variable repr_other : json -> str.

Lemma normalize_pics_refs (raw : json) :
  Forall clean_ref (normalize_pics repr_other raw).
Proof.
  assert (C : forall x, is_empty (strip (py_str repr_other x)) = false ->
                        clean_ref (strip (py_str repr_other x))).
  { intros x H. split.
    - intros E. rewrite E in H. discriminate.
    - apply strip_by_idem. }
  assert (One : forall x, Forall clean_ref
                 (if is_empty (strip (py_str repr_other x)) then []
                  else [strip (py_str repr_other x)])).
  { intros x. destruct (is_empty _) eqn:H; constructor; [now apply C | constructor]. }
  destruct raw; try apply One; [constructor|].
  simpl. induction l as [|x l IH]; simpl; [constructor|].
  destruct (is_empty (strip (py_str repr_other x))) eqn:H; simpl; [exact IH|].
  constructor; [now apply C | exact IH].
Qed.

(** X3. Every reference [normalize_pics] returns is non-empty and has
    no white space at either end, whatever the value it is given. *)
Theorem normalize_pics_clean (raw : json) :
  Forall clean_ref (normalize_pics repr_other raw).
Proof. exact (normalize_pics_refs raw). Qed.

(** X4. A value that is neither None nor a list is treated as the list
    of that one value. *)
Theorem normalize_pics_single (raw : json) :
  raw <> JNull -> (forall l, raw <> JList l) ->
  normalize_pics repr_other raw = normalize_pics repr_other (JList [raw]).
Proof.
  intros Hn Hl.
  destruct raw; try (now destruct Hn); try (now destruct (Hl l));
    simpl; destruct (is_empty _); reflexivity.
Qed.

Lemma normalize_pics_of_clean (l : list str) :
  Forall clean_ref l -> normalize_pics repr_other (JList (map JStr l)) = l.
Proof.
  induction 1 as [|p l [Hne Hs] _ IH]; [reflexivity|].
  cbn [normalize_pics map filter py_str] in *. rewrite Hs.
  destruct p as [|a p]; [now destruct Hne|].
  cbn [is_empty negb map py_str]. rewrite Hs. f_equal. exact IH.
Qed.

(** X5. Normalizing the list of references [normalize_pics] returned
    gives the same list. *)
Theorem normalize_pics_idempotent (raw : json) :
  normalize_pics repr_other (JList (map JStr (normalize_pics repr_other raw)))
  = normalize_pics repr_other raw.
Proof. apply normalize_pics_of_clean, normalize_pics_refs. Qed.

End NormalizePics.

(** ** slugify *)

Lemma id_char_not_space c : is_id_char c = true -> isspace c = false.
Proof. each_char c; intros H; try reflexivity; discriminate H. Qed.

Lemma id_char_lower c : is_id_char c = true -> lower_char c = c.
Proof. each_char c; intros H; try reflexivity; discriminate H. Qed.

Lemma hyphen_char c : is_hyphen c = true -> c = "-"%char.
Proof. each_char c; intros H; try reflexivity; discriminate H. Qed.

Lemma id_char_cases c : is_id_char c = true -> is_slug_char c = false -> is_hyphen c = true.
Proof. unfold is_id_char. intros H N. now rewrite N in H. Qed.

Lemma no_hyphen_pair_cons c t :
  no_hyphen_pair (c :: t) = true <->
  (is_hyphen c = true -> head_not_hyphen t) /\ no_hyphen_pair t = true.
Proof.
  destruct t as [|c' t]; cbn [no_hyphen_pair head_not_hyphen].
  - tauto.
  - rewrite andb_true_iff, negb_true_iff, andb_false_iff.
    destruct (is_hyphen c), (is_hyphen c'); intuition congruence.
Qed.

Lemma sub_runs_id_chars b t : forallb is_id_char (sub_runs b t) = true.
Proof.
  revert b; induction t as [|c r IH]; intros b; simpl; [reflexivity|].
  destruct (is_slug_char c) eqn:Hc; simpl.
  - unfold is_id_char at 1. now rewrite Hc, IH.
  - destruct b; simpl; now rewrite IH.
Qed.

Lemma sub_runs_no_pair b t :
  no_hyphen_pair (sub_runs b t) = true /\
  (b = true -> head_not_hyphen (sub_runs b t)).
Proof.
  revert b; induction t as [|c r IH]; intros b; simpl; [now split|].
  destruct (is_slug_char c) eqn:Hc.
  - pose proof (slug_not_hyphen _ Hc) as Hh. split.
    + apply no_hyphen_pair_cons. split; [congruence | apply IH].
    + intros _. exact Hh.
  - destruct b.
    + apply IH.
    + split; [|discriminate]. apply no_hyphen_pair_cons.
      split; [intros _; now apply IH | apply IH].
Qed.

Lemma forallb_lstrip_other (p q : ascii -> bool) s :
  forallb q s = true -> forallb q (lstrip_by p s) = true.
Proof.
  induction s as [|c r IH]; simpl; [reflexivity|].
  rewrite andb_true_iff. intros [Hc Hr].
  destruct (p c); [now apply IH | simpl; now rewrite Hc, Hr].
Qed.

Lemma forallb_strip_other (p q : ascii -> bool) s :
  forallb q s = true -> forallb q (strip_by p s) = true.
Proof.
  intros H. unfold strip_by, rstrip_by.
  rewrite forallb_rev. apply forallb_lstrip_other.
  rewrite forallb_rev. now apply forallb_lstrip_other.
Qed.

Lemma no_hyphen_pair_lstrip p s :
  no_hyphen_pair s = true -> no_hyphen_pair (lstrip_by p s) = true.
Proof.
  induction s as [|c r IH]; [reflexivity|].
  intros H. simpl lstrip_by. destruct (p c); [|exact H].
  apply IH. now apply no_hyphen_pair_cons in H.
Qed.

Lemma rstrip_by_head p s x y : rstrip_by p s = x :: y -> exists y', s = x :: y'.
Proof.
  destruct s as [|c r]; [discriminate|]. rewrite rstrip_by_cons.
  destruct (forallb p r); [destruct (p c)|]; intros H; try discriminate;
    injection H as <- _; now exists r.
Qed.

Lemma no_hyphen_pair_rstrip p s :
  no_hyphen_pair s = true -> no_hyphen_pair (rstrip_by p s) = true.
Proof.
  induction s as [|c r IH]; [reflexivity|].
  intros H. rewrite rstrip_by_cons.
  destruct (forallb p r); [now destruct (p c)|].
  apply no_hyphen_pair_cons in H. destruct H as [Hh Hr].
  apply no_hyphen_pair_cons. split; [|now apply IH].
  intros Hc. specialize (Hh Hc).
  destruct (rstrip_by p r) as [|x y] eqn:E; [exact I|].
  apply rstrip_by_head in E. destruct E as [y' ->]. exact Hh.
Qed.

Lemma slugify_slug_shaped (text : str) : slug_shaped (slugify text).
Proof.
  rewrite slugify_slug_of_name. unfold slug_of_name.
  destruct (is_empty _) eqn:E.
  - repeat split; try reflexivity. discriminate.
  - split; [|split; [|split]].
    + intros H. rewrite H in E. discriminate.
    + apply forallb_strip_other, sub_runs_id_chars.
    + unfold strip_by. apply no_hyphen_pair_rstrip, no_hyphen_pair_lstrip, sub_runs_no_pair.
    + apply strip_by_idem.
Qed.

(** X6. A slug is never empty, is made of a-z, 0-9 and hyphens only,
    has no two hyphens in a row and no hyphen at either end. *)
Theorem slugify_shape (text : str) :
  let t := slugify text in
  t <> [] /\ forallb is_id_char t = true /\ no_hyphen_pair t = true /\
  strip_by is_hyphen t = t.
Proof. exact (slugify_slug_shaped text). Qed.

Lemma sub_runs_fixed b u :
  forallb is_id_char u = true -> no_hyphen_pair u = true ->
  (b = true -> head_not_hyphen u) -> sub_runs b u = u.
Proof.
  revert b; induction u as [|c r IH]; intros b Hi Hp Hb; [reflexivity|].
  simpl in Hi. apply andb_true_iff in Hi. destruct Hi as [Hc Hr].
  apply no_hyphen_pair_cons in Hp. destruct Hp as [Hh Hp].
  simpl. destruct (is_slug_char c) eqn:Hs.
  - f_equal. apply IH; [assumption | assumption | discriminate].
  - pose proof (id_char_cases _ Hc Hs) as Hy.
    destruct b.
    + specialize (Hb eq_refl). simpl in Hb. congruence.
    + rewrite (hyphen_char _ Hy). f_equal. apply IH; [assumption | assumption |].
      intros _. now apply Hh.
Qed.

Lemma slugify_fixed (u : str) : slug_shaped u -> slugify u = u.
Proof.
  intros (Hne & Hi & Hp & Hs). unfold slugify.
  assert (E1 : strip u = u).
  { apply strip_by_none. rewrite forallb_forall in *. intros c Hc.
    now rewrite (id_char_not_space _ (Hi c Hc)). }
  assert (E2 : lower u = u).
  { unfold lower. rewrite <- (map_id u) at 2. apply map_ext_in.
    intros c Hc. rewrite forallb_forall in Hi. now apply id_char_lower, Hi. }
  rewrite E1, E2, collapse_sub_runs.
  rewrite (@sub_runs_fixed false u Hi Hp) by discriminate.
  rewrite Hs. destruct u; [now destruct Hne | reflexivity].
Qed.

(** X7. [slugify] is idempotent: the slug of a slug is that slug. *)
Theorem slugify_idempotent (text : str) : slugify (slugify text) = slugify text.
Proof. apply slugify_fixed, slugify_slug_shaped. Qed.

(** ** parse_price on texts *)

(** X8. The price of a text depends on its digits and points only: two
    texts with the same digits and points in the same order have the
    same price, whatever else they contain (currency, spaces, commas,
    signs, letters). *)
Theorem parse_price_kept (repr_other : json -> str) (s1 s2 : str) :
  filter kept_in_price s1 = filter kept_in_price s2 ->
  parse_price repr_other (JStr s1) = parse_price repr_other (JStr s2).
Proof.
  intros H. rewrite !parse_price_text by exact I. cbn [py_str].
  now rewrite !price_of_text_kept, H.
Qed.

(** *** Integers are read exactly *)

(** X9. When the digits and points of a text are digits only, at least
    one, and write a number below 2^53, [parse_price] returns that
    number exactly. *)
Theorem parse_price_integer_text (repr_other : json -> str) (s : str) :
  let k := filter kept_in_price s in
  k <> [] -> forallb is_digit k = true -> (digits_val k < 2 ^ 53)%Z ->
  parse_price repr_other (JStr s) = Ok (digits_val k).
Proof.
  intros k Hne Hd Hlt. rewrite parse_price_text by exact I.
  now apply price_of_text_digits.
Qed.

(** *** Reading back what str writes *)

Lemma uint_digits_val_acc d : forall acc : positive,
  fold_left (fun a c => (10 * a + digit_val c)%Z)
            (list_ascii_of_string (NilEmpty.string_of_uint d)) (Z.pos acc)
  = Z.pos (Pos.of_uint_acc d acc).
Proof.
  induction d; intros acc;
    cbn [NilEmpty.string_of_uint list_ascii_of_string fold_left Pos.of_uint_acc];
    try reflexivity; rewrite <- IHd; f_equal;
    unfold digit_val; simpl (Z.of_N _); lia.
Qed.

Lemma uint_digits_val d :
  digits_val (list_ascii_of_string (NilEmpty.string_of_uint d)) = Z.of_N (Pos.of_uint d).
Proof.
  unfold digits_val.
  induction d;
    cbn [NilEmpty.string_of_uint list_ascii_of_string fold_left Pos.of_uint];
    try reflexivity; try exact IHd;
    cbn [Z.of_N]; rewrite <- uint_digits_val_acc; reflexivity.
Qed.

Lemma filter_all {A} (f : A -> bool) (l : list A) : forallb f l = true -> filter f l = l.
Proof.
  induction l as [|a l IH]; simpl; [reflexivity|].
  rewrite andb_true_iff. intros [Ha Hl]. now rewrite Ha, (IH Hl).
Qed.

Lemma digit_kept c : is_digit c = true -> kept_in_price c = true.
Proof. unfold kept_in_price. now intros ->. Qed.

Lemma pos_digits (p : positive) :
  let k := list_ascii_of_string (NilZero.string_of_uint (Pos.to_uint p)) in
  k <> [] /\ forallb is_digit k = true /\ digits_val k = Z.pos p.
Proof.
  intros k. subst k.
  assert (E : NilZero.string_of_uint (Pos.to_uint p)
              = NilEmpty.string_of_uint (Pos.to_uint p)).
  { pose proof (DecimalPos.Unsigned.to_uint_nonnil p) as N.
    unfold NilZero.string_of_uint. destruct (Pos.to_uint p); [now destruct N | reflexivity ..]. }
  rewrite E. split; [|split].
  - pose proof (DecimalPos.Unsigned.to_uint_nonnil p) as N.
    destruct (Pos.to_uint p); [now destruct N | discriminate ..].
  - apply string_of_uint_digits.
  - rewrite uint_digits_val, DecimalPos.Unsigned.of_to. reflexivity.
Qed.

Lemma price_of_text_digits_after (pre k : str) :
  filter kept_in_price pre = [] -> k <> [] -> forallb is_digit k = true ->
  (digits_val k < 2 ^ 53)%Z ->
  price_of_text (pre ++ k) = Ok (digits_val k).
Proof.
  intros Hpre Hne Hd Hlt.
  assert (E : filter kept_in_price (pre ++ k) = k).
  { rewrite filter_app, Hpre. apply filter_all.
    rewrite forallb_forall in *. intros c Hc. now apply digit_kept, Hd. }
  pose proof (price_of_text_digits (pre ++ k)) as H. cbv zeta in H.
  rewrite E in H. now apply H.
Qed.

(** X10. A text that [str] writes for an integer of magnitude below
    2^53 is read back as that magnitude: a non-negative integer in
    quotes has the price of the number itself, and a minus sign is
    lost. *)
Theorem parse_price_of_str (repr_other : json -> str) (z : Z) :
  (Z.abs z < 2 ^ 53)%Z ->
  parse_price repr_other (JStr (py_str repr_other (JInt z))) = Ok (Z.abs z).
Proof.
  intros Hz. rewrite parse_price_text by exact I. cbn [py_str]. unfold str_of_Z.
  destruct z as [|p|p]; [reflexivity | |];
    destruct (pos_digits p) as (Hne & Hd & Hv);
    cbn [Z.to_int NilZero.string_of_int] in *.
  - change (Z.abs (Z.pos p)) with (Z.pos p) in *. rewrite <- Hv.
    apply (price_of_text_digits_after []); try assumption; [reflexivity|].
    now rewrite Hv.
  - change (Z.abs (Z.neg p)) with (Z.pos p) in *. rewrite <- Hv.
    apply (price_of_text_digits_after ["-"%char]); try assumption; [reflexivity|].
    now rewrite Hv.
Qed.

(** ** filter_laptops, further *)

Lemma filter_none {A} (f : A -> bool) (l : list A) :
  (forall x, f x = false) -> filter f l = [].
Proof. intros H. induction l as [|a l IH]; simpl; [reflexivity|]. now rewrite H. Qed.

Lemma filter_laptops_inverted h items (a b : Z) q :
  (b < a)%Z -> filter_laptops h items (Some a) (Some b) q = [].
Proof.
  intros H. rewrite filter_laptops_keeps. apply filter_none. intros x.
  unfold keeps.
  destruct (price (get h x) >=? a)%Z eqn:E1; [|reflexivity].
  destruct (price (get h x) <=? b)%Z eqn:E2; [|reflexivity].
  apply Z.geb_le in E1. apply Z.leb_le in E2. lia.
Qed.

(** X11. With a lower bound above the upper bound nothing is kept. *)
Theorem filter_laptops_empty_range h items (a b : Z) q :
  (b < a)%Z -> filter_laptops h items (Some a) (Some b) q = [].
Proof. apply filter_laptops_inverted. Qed.

Lemma keeps_query r mn mx s1 s2 :
  lower (strip s1) = lower (strip s2) ->
  keeps r mn mx (Some s1) = keeps r mn mx (Some s2).
Proof. intros H. unfold keeps. now rewrite H. Qed.

Lemma keeps_blank r mn mx s :
  forallb isspace s = true -> keeps r mn mx (Some s) = keeps r mn mx None.
Proof.
  intros H. unfold keeps. apply strip_by_nil_iff in H. unfold strip. rewrite H.
  now rewrite contains_nil.
Qed.

(** X12. The query counts up to case and surrounding white space only,
    and a query of white space alone filters nothing out. *)
Theorem filter_laptops_query h items mn mx (s1 s2 : str) :
  (lower (strip s1) = lower (strip s2) ->
   filter_laptops h items mn mx (Some s1) = filter_laptops h items mn mx (Some s2)) /\
  (forallb isspace s1 = true ->
   filter_laptops h items mn mx (Some s1) = filter_laptops h items mn mx None).
Proof.
  split; intros H; rewrite !filter_laptops_keeps; apply filter_ext; intros x.
  - now apply keeps_query.
  - now apply keeps_blank.
Qed.

Lemma filter_laptops_twice h items a b q a' b' q' :
  filter_laptops h (filter_laptops h items a b q) a' b' q' =
  filter (fun x => keeps (get h x) a b q && keeps (get h x) a' b' q') items.
Proof. now rewrite !filter_laptops_keeps, filter_filter. Qed.

(** X13. Filtering a filtered list: the two filters can be applied in
    either order, and applying the same filter again changes nothing. *)
Theorem filter_laptops_compose h items a b q a' b' q' :
  filter_laptops h (filter_laptops h items a b q) a' b' q' =
  filter_laptops h (filter_laptops h items a' b' q') a b q /\
  filter_laptops h (filter_laptops h items a b q) a b q =
  filter_laptops h items a b q.
Proof.
  split.
  - rewrite !filter_laptops_twice. apply filter_ext. intros x. apply andb_comm.
  - rewrite filter_laptops_twice, filter_laptops_keeps. apply filter_ext.
    intros x. apply andb_diag.
Qed.

(** ** normalize_range_value, further *)

Lemma normalize_range_value_plain v :
  plain_bound v -> normalize_range_value v = v.
Proof.
  destruct v as [x|]; [|reflexivity]. simpl. intros H.
  now apply normalize_range_value_other.
Qed.

Lemma normalize_range_value_is_plain v : plain_bound (normalize_range_value v).
Proof.
  destruct v as [x|]; [|exact I]. unfold normalize_range_value.
  destruct ((0 <? x) && (x <? 1000))%Z eqn:E; simpl.
  - apply andb_true_iff in E. destruct E as [E1 E2].
    apply Z.ltb_lt in E1, E2. lia.
  - intros [H1 H2]. apply Z.ltb_lt in H1, H2. rewrite H1, H2 in E. discriminate.
Qed.

(** X14. Range normalization never returns a value strictly between 0
    and 1000, never lowers a non-negative bound, and normalizing twice
    is normalizing once. *)
Theorem normalize_range_value_range (v : option Z) :
  (forall r, normalize_range_value v = Some r -> ~ (0 < r < 1000)%Z) /\
  (forall x r, v = Some x -> normalize_range_value v = Some r -> (0 <= x)%Z -> (x <= r)%Z) /\
  normalize_range_value (normalize_range_value v) = normalize_range_value v.
Proof.
  pose proof (normalize_range_value_is_plain v) as P. split; [|split].
  - intros r E. now rewrite E in P.
  - intros x r -> E Hx. unfold normalize_range_value in E.
    destruct ((0 <? x) && (x <? 1000))%Z; injection E as <-; lia.
  - now apply normalize_range_value_plain.
Qed.

(** ** The routes, further *)

Section RoutesFurther.

Variable repr_other : json -> str.

(** X15. Range normalization can turn an ordered range into an empty
    one: with [0 < a < 1000 <= b < a * 1000] the listing route filters
    with the lower bound [a * 1000] above the upper bound [b] and lists
    nothing, although [a <= b]. *)
Theorem shorthand_empties_range d st items st1 (a b : Z) q :
  load_laptops repr_other d st = (Ok items, st1) ->
  (0 < a < 1000)%Z -> (1000 <= b < a * 1000)%Z ->
  fst (home repr_other d None None (Some a) (Some b) q st)
  = Ok (Listing [] (Some (a * 1000)%Z) (Some b)) /\
  fst (home repr_other d (Some a) (Some b) None None q st)
  = Ok (Listing [] (Some (a * 1000)%Z) (Some b)).
Proof.
  intros H Ha Hb.
  rewrite !(@home_listing repr_other _ _ _ _ _ _ _ _ _ H).
  unfold first_some; cbn [fst].
  rewrite (normalize_range_value_small Ha).
  rewrite (@normalize_range_value_other b) by lia.
  rewrite !or_blank_nonzero by lia.
  rewrite filter_laptops_inverted by lia. split; reflexivity.
Qed.

(** X16. With bounds that are absent, 0, or at least 1000, the listing
    route and the JSON endpoint return the same list for the same
    parameters; the template gets those bounds, a bound 0 as the empty
    text. *)
Theorem listing_agrees_with_api d st items st1 min_price max_price q :
  load_laptops repr_other d st = (Ok items, st1) ->
  plain_bound min_price -> plain_bound max_price ->
  exists l,
    fst (home repr_other d min_price max_price None None q st)
    = Ok (Listing l (or_blank min_price) (or_blank max_price)) /\
    fst (api_laptops repr_other d min_price max_price q st)
    = Ok (ApiLaptops (List.length l) l).
Proof.
  intros H Hmin Hmax.
  exists (filter_laptops (store st1) items min_price max_price q).
  rewrite (@home_listing repr_other _ _ _ _ _ _ _ _ _ H).
  rewrite (@api_laptops_listing repr_other _ _ _ _ _ _ _ H).
  unfold first_some; cbn [fst].
  now rewrite !normalize_range_value_plain.
Qed.

Lemma cache_hit_empty c m : items c = [] -> cache_hit c m = false.
Proof.
  intros H. unfold cache_hit. rewrite H. destruct (mtime c); [apply andb_false_r | reflexivity].
Qed.

Lemma load_laptops_again d st :
  load_laptops repr_other d (snd (load_laptops repr_other d st))
  = load_laptops repr_other d st.
Proof.
  destruct (load_laptops_cases repr_other d st) as
    [ Hd | f Hf Hh | f Hf Hh Hc | f v Hf Hh Hc Hv
    | f data e Hf Hh Hc Hb | f data built Hf Hh Hc Hb];
    cbn [snd]; subst d; unfold load_laptops.
  - reflexivity.
  - now rewrite Hh.
  - now rewrite Hh, Hc.
  - rewrite Hh, Hc. destruct v; try reflexivity. now destruct (Hv l).
  - now rewrite Hh, Hc, Hb.
  - cbn [cache store]. unfold alloc. cbn [fst snd].
    destruct (sort_by_price built) as [|r rs] eqn:Es.
    + cbn [List.length seq]. rewrite cache_hit_empty by reflexivity.
      rewrite Hc, Hb, Es. unfold alloc. cbn [List.length seq].
      now rewrite !app_nil_r.
    + unfold cache_hit. cbn [mtime items List.length seq].
      now rewrite Z.eqb_refl.
Qed.

(** X17. Loading twice in a row from the same file gives the result and
    the state of loading once. *)
Theorem load_laptops_idempotent d st :
  load_laptops repr_other d (snd (load_laptops repr_other d st))
  = load_laptops repr_other d st.
Proof. apply load_laptops_again. Qed.

(** X18. An empty catalogue is never served from the cache: after a
    load that returned no record, the cache hits for no modification
    time, so the next call reads the file again (and raises if the file
    is no longer JSON, even with the same modification time). *)
Theorem empty_catalogue_not_cached d st st' :
  load_laptops repr_other d st = (Ok [], st') ->
  (forall m, cache_hit (cache st') m = false) /\
  (forall m, load_laptops repr_other (Some {| st_mtime := m; content := None |}) st'
             = (Raise JSONDecodeError, st')).
Proof.
  intros H. apply load_returns_cache in H.
  assert (E : forall m, cache_hit (cache st') m = false)
    by (intros m; now apply cache_hit_empty).
  split; [exact E|]. intros m. unfold load_laptops. cbn [st_mtime content].
  now rewrite E.
Qed.

End RoutesFurther.

(** ** The records of a catalogue *)

Lemma str_of_nat_nonempty n : str_of_nat n <> [].
Proof.
  unfold str_of_nat.
  assert (N : Nat.to_uint n <> Decimal.Nil).
  { rewrite <- (DecimalNat.Unsigned.of_to n) at 1.
    rewrite DecimalNat.Unsigned.to_of. apply unorm_nonnil. }
  destruct (Nat.to_uint n); [now destruct N | discriminate ..].
Qed.

Lemma digit_id_char c : is_digit c = true -> is_id_char c = true.
Proof. unfold is_id_char, is_slug_char. intros ->. now rewrite orb_true_r. Qed.

Lemma digit_not_space c : is_digit c = true -> negb (isspace c) = true.
Proof. each_char c; intros H; try reflexivity; discriminate H. Qed.

Lemma rstrip_by_none p (s : str) :
  forallb (fun c => negb (p c)) s = true -> rstrip_by p s = s.
Proof.
  intros H. unfold rstrip_by. rewrite lstrip_by_none; [apply rev_involutive|].
  now rewrite forallb_rev.
Qed.

Lemma untitled_stripped n :
  strip ("Untitled Laptop " ++ str_of_nat n) = "Untitled Laptop " ++ str_of_nat n.
Proof.
  unfold strip. eapply strip_by_app.
  - reflexivity.
  - reflexivity.
  - apply str_of_nat_nonempty.
  - apply rstrip_by_none. pose proof (str_of_nat_digits n) as H.
    rewrite forallb_forall in *. intros c Hc. now apply digit_not_space, H.
Qed.

Lemma record_shaped_core r r' : core r = core r' -> record_shaped r' -> record_shaped r.
Proof.
  unfold core, record_shaped. intros H.
  injection H as -> -> _ -> ->. tauto.
Qed.

Lemma Forall_core (P : laptop -> Prop) a : forall b,
  (forall x y, core x = core y -> P y -> P x) ->
  map core a = map core b -> Forall P b -> Forall P a.
Proof.
  induction a as [|x a IH]; intros [|y b] HP H Hb; simpl in H;
    try discriminate; constructor.
  - apply cons_eq_inv in H. destruct H as [H _].
    inversion Hb; subst. eapply HP; eassumption.
  - apply cons_eq_inv in H. destruct H as [_ H].
    inversion Hb; subst. eapply IH; eassumption.
Qed.

Section Records.

Variable repr_other : json -> str.

Lemma build_item_shaped idx row r :
  build_item repr_other idx row = Ok r -> record_shaped r.
Proof.
  unfold build_item.
  destruct (parse_price repr_other (dict_get row "price" (JInt 0))) as [z|e];
    cbn [bind]; [|discriminate].
  intros H. injection H as <-. unfold record_shaped. cbn [name description pics id].
  match goal with |- context [is_empty ?x] => set (raw := x) end.
  split; [|split; [|split; [|split; [|split]]]].
  - destruct (is_empty raw) eqn:E.
    + intros H. discriminate H.
    + intros H. rewrite H in E. discriminate E.
  - destruct (is_empty raw) eqn:E; [apply untitled_stripped | apply strip_by_idem].
  - apply strip_by_idem.
  - apply normalize_pics_refs.
  - destruct (slugify_slug_shaped (if is_empty raw
                                   then "Untitled Laptop " ++ str_of_nat (idx + 1)
                                   else raw)) as (Hne & _).
    intros H. apply app_eq_nil in H. now destruct Hne.
  - rewrite !forallb_app. rewrite andb_true_iff. split.
    + apply slugify_slug_shaped.
    + simpl. pose proof (str_of_nat_digits (idx + 1)) as H.
      rewrite forallb_forall in *. intros c Hc. now apply digit_id_char, H.
Qed.

Lemma loaded_from_shaped data rs :
  loaded_from repr_other data rs -> Forall record_shaped rs.
Proof.
  intros (built & Hb & H).
  eapply Forall_core; [apply record_shaped_core | exact H |].
  eapply Permutation_Forall; [apply sort_by_price_perm|].
  apply build_items_entries in Hb. clear H.
  induction Hb as [|e r es rs' He _ IH]; constructor; [|exact IH].
  eapply build_item_shaped, He.
Qed.

(** X19. In every sequence [load_laptops] returns, each record has a
    non-empty name and a description with no white space at either end,
    pictures that are non-empty and trimmed, and an identifier made of
    a-z, 0-9 and hyphens only. *)
Theorem loaded_records_shaped st d locs st' :
  reachable repr_other st ->
  load_laptops repr_other d st = (Ok locs, st') ->
  Forall (fun r =>
            name r <> [] /\ strip (name r) = name r /\
            strip (description r) = description r /\
            Forall clean_ref (pics r) /\
            id r <> [] /\ forallb is_id_char (id r) = true)
         (map (get (store st')) locs).
Proof.
  intros Hr H. destruct (@load_Ok_loaded repr_other _ _ _ _ Hr H) as (data & Hd & _).
  exact (loaded_from_shaped Hd).
Qed.

End Records.

(** ** What the routes list *)

Lemma map_get_filter h (p : laptop -> bool) locs :
  map (get h) (filter (fun x => p (get h x)) locs) = filter p (map (get h) locs).
Proof.
  induction locs as [|x locs IH]; simpl; [reflexivity|].
  destruct (p (get h x)); simpl; now rewrite IH.
Qed.

Lemma StronglySorted_filter {A} (R : A -> A -> Prop) p l :
  StronglySorted R l -> StronglySorted R (filter p l).
Proof.
  induction 1 as [|a l Hs IH Hf]; simpl; [constructor|].
  destruct (p a); [|exact IH]. constructor; [exact IH|].
  apply Forall_forall. intros x Hx. apply filter_In in Hx.
  rewrite Forall_forall in Hf. now apply Hf.
Qed.

Lemma NoDup_map_filter {A B} (f : A -> B) p l :
  NoDup (map f l) -> NoDup (map f (filter p l)).
Proof.
  induction l as [|a l IH]; simpl; intros H; [constructor|].
  inversion H as [|? ? Hn Hd]; subst. destruct (p a); simpl; [|now apply IH].
  constructor; [|now apply IH]. intros Hin. apply Hn.
  apply in_map_iff in Hin. destruct Hin as (x & Hx & Hi).
  apply filter_In in Hi. apply in_map_iff. exists x. tauto.
Qed.

Lemma NoDup_map_In_inj {A B} (f : A -> B) l x y :
  NoDup (map f l) -> In x l -> In y l -> f x = f y -> x = y.
Proof.
  induction l as [|a l IH]; simpl; intros H Hx Hy E; [contradiction|].
  inversion H as [|? ? Hn Hd]; subst.
  destruct Hx as [-> | Hx], Hy as [-> | Hy].
  - reflexivity.
  - destruct Hn. rewrite E. now apply in_map.
  - destruct Hn. rewrite <- E. now apply in_map.
  - now apply IH.
Qed.

Lemma str_eqb_eq a b : str_eqb a b = true <-> a = b.
Proof. unfold str_eqb. destruct (list_eq_dec ascii_dec a b); split; congruence. Qed.

Lemma find_unique {A} (f : A -> str) l x :
  NoDup (map f l) -> In x l ->
  find (fun y => str_eqb (f y) (f x)) l = Some x.
Proof.
  intros Hn Hx.
  destruct (find (fun y => str_eqb (f y) (f x)) l) as [y|] eqn:F.
  - apply find_some in F. destruct F as [Hy E]. apply str_eqb_eq in E.
    f_equal. eapply NoDup_map_In_inj; eassumption.
  - eapply find_none in F; [|exact Hx]. cbv beta in F.
    assert (E : str_eqb (f x) (f x) = true) by now apply str_eqb_eq.
    congruence.
Qed.

Lemma core_price x y : core x = core y -> price x = price y.
Proof. unfold core. congruence. Qed.

Lemma core_name x y : core x = core y -> name x = name y.
Proof. unfold core. congruence. Qed.

Lemma core_pics x y : core x = core y -> pics x = pics y.
Proof. unfold core. congruence. Qed.

Lemma core_id x y : core x = core y -> id x = id y.
Proof. unfold core. congruence. Qed.

Lemma keeps_core x y min_price max_price q :
  core x = core y -> keeps x min_price max_price q = keeps y min_price max_price q.
Proof. intros H. unfold keeps. now rewrite (core_price H), (core_name H). Qed.

Lemma sorted_core a b :
  map core a = map core b -> StronglySorted price_le b -> StronglySorted price_le a.
Proof.
  intros H Hs. apply sorted_map_price. rewrite (map_core_price _ _ H).
  now apply sorted_map_price.
Qed.

Lemma heap_ext (h1 h2 : heap) :
  List.length h1 = List.length h2 -> (forall x, get h1 x = get h2 x) -> h1 = h2.
Proof.
  intros Hl Hg. apply nth_ext with (d := no_laptop) (d' := no_laptop); [exact Hl|].
  intros n _. apply Hg.
Qed.

Lemma clean_ref_resolved p : clean_ref p -> shown_url (resolve_pic_url p).
Proof.
  intros [Hn Hs]. destruct (resolve_pic_url_facts p) as (He & Hv & _).
  assert (N : resolve_pic_url p <> []).
  { intros E. apply He in E. apply (proj2 (@strip_by_nil_iff isspace p)) in E.
    unfold strip in Hs. rewrite E in Hs. now destruct Hn. }
  split; [exact N|]. destruct Hv as [E | S]; [now destruct N | exact S].
Qed.

Lemma with_pic_urls_shown r :
  Forall clean_ref (pics r) ->
  exists urls,
    pic_urls (with_pic_urls r) = Some urls /\ urls <> [] /\
    Forall shown_url urls /\
    List.length urls = Nat.max 1 (List.length (pics r)) /\
    (pics r <> [] -> urls = map resolve_pic_url (pics r)).
Proof.
  intros H. unfold with_pic_urls; cbn [pic_urls].
  destruct (pics r) as [|p ps]; cbn [map].
  - exists [placeholder_160]. split; [reflexivity|]. split; [discriminate|].
    split; [|split; [reflexivity | intros N; now destruct N]].
    constructor; [|constructor]. split; [discriminate | reflexivity].
  - exists (resolve_pic_url p :: map resolve_pic_url ps).
    split; [reflexivity|]. split; [discriminate|].
    split; [|split; [|reflexivity]].
    + change (Forall shown_url (map resolve_pic_url (p :: ps))).
      apply Forall_map. eapply Forall_impl; [|exact H]. apply clean_ref_resolved.
    + cbn [List.length]. rewrite length_map. lia.
Qed.

Section Listed.

Variable repr_other : json -> str.

Lemma serve_Ok_load d r st resp st' :
  serve repr_other d r st = (Ok resp, st') ->
  exists locs s1, load_laptops repr_other d st = (Ok locs, s1).
Proof.
  destruct r; cbn [serve]; unfold home, product_page, api_laptops;
    destruct (load_laptops repr_other d st) as [[locs|e] s1]; intros H;
    try discriminate; eauto.
Qed.

Lemma catalogue_after_load st d locs s1 :
  reachable repr_other st ->
  load_laptops repr_other d st = (Ok locs, s1) ->
  let rs := map (get (store s1)) locs in
  StronglySorted price_le rs /\ NoDup (map id rs) /\ Forall record_shaped rs /\
  Forall (fun x => x < List.length (store s1)) locs /\ items (cache s1) = locs.
Proof.
  intros Hr H rs.
  destruct (@load_Ok_loaded repr_other _ _ _ _ Hr H) as (data & Hd & _).
  pose proof (@load_cache_ok repr_other d st (@reachable_cache_ok repr_other st Hr)) as [Hv _].
  pose proof (@load_returns_cache repr_other _ _ _ _ H) as Hi.
  rewrite H in Hv. cbn [snd] in Hv. rewrite Hi in Hv.
  split; [eapply loaded_from_sorted; exact Hd|].
  split; [eapply loaded_from_ids; exact Hd|].
  split; [eapply loaded_from_shaped; exact Hd|].
  split; [exact Hv | exact Hi].
Qed.

(** X20. Whatever a route answers with refers to records of the cached
    catalogue only, in ascending order of price and with pairwise
    distinct identifiers; the count of the JSON endpoint is the number
    of records it returns. *)
Theorem responses_list_catalogue d r st resp st' :
  reachable repr_other st ->
  serve repr_other d r st = (Ok resp, st') ->
  let rs := map (get (store st')) (listed_in resp) in
  incl (listed_in resp) (items (cache st')) /\
  StronglySorted price_le rs /\
  NoDup (map id rs) /\
  (forall n l, resp = ApiLaptops n l -> n = List.length l).
Proof.
  intros Hr Hs rs.
  destruct (serve_Ok_load _ _ _ Hs) as (locs & s1 & Hl).
  destruct (catalogue_after_load _ Hr Hl) as (Hsort & Hnd & _ & _ & Hi).
  destruct (@serve_after_load repr_other d r st) as (Hc & _ & Hg).
  rewrite Hs, Hl in Hc, Hg. cbn [snd] in Hc, Hg.
  assert (Ecore : map core rs = map core (map (get (store s1)) (listed_in resp))).
  { unfold rs. rewrite !map_map. apply map_ext. intros x. apply Hg. }
  rewrite Hc, Hi.
  assert (G : incl (listed_in resp) locs /\
              StronglySorted price_le (map (get (store s1)) (listed_in resp)) /\
              NoDup (map id (map (get (store s1)) (listed_in resp))) /\
              (forall n l, resp = ApiLaptops n l -> n = List.length l)).
  { destruct r as [min_price max_price min max q | item_id | min_price max_price q];
      cbn [serve] in Hs.
    - rewrite (@home_listing repr_other _ _ _ _ _ _ _ _ _ Hl) in Hs.
      cbv zeta in Hs. injection Hs as <- _. cbn [listed_in].
      rewrite filter_laptops_keeps.
      rewrite (map_get_filter (store s1) (fun r => keeps r _ _ q)).
      split; [intros x Hx; now apply filter_In in Hx|].
      split; [now apply StronglySorted_filter|].
      split; [now apply NoDup_map_filter | discriminate].
    - unfold product_page in Hs. rewrite Hl in Hs.
      destruct (find _ locs) as [item|] eqn:F; [|discriminate].
      injection Hs as <- _. cbn [listed_in map].
      apply find_some in F. destruct F as [Hin _].
      split; [intros x [<- | []]; exact Hin|].
      split; [repeat constructor|].
      split; [|discriminate]. constructor; [intros [] | constructor].
    - rewrite (@api_laptops_listing repr_other _ _ _ _ _ _ _ Hl) in Hs.
      cbv zeta in Hs. injection Hs as <- _. cbn [listed_in].
      rewrite filter_laptops_keeps.
      rewrite (map_get_filter (store s1) (fun r => keeps r _ _ q)).
      split; [intros x Hx; now apply filter_In in Hx|].
      split; [now apply StronglySorted_filter|].
      split; [now apply NoDup_map_filter|].
      intros n l E. now injection E as <- <-. }
  destruct G as (G1 & G2 & G3 & G4).
  split; [exact G1|]. split; [eapply sorted_core; eassumption|].
  split; [|exact G4]. now rewrite (map_core_id _ _ Ecore).
Qed.

End Listed.

(** ** The listing and the product page *)

Section Pages.

Variable repr_other : json -> str.

Lemma load_raise_state d st e st' :
  load_laptops repr_other d st = (Raise e, st') -> st' = st.
Proof.
  intros H. destruct (load_laptops_cases repr_other d st);
    try discriminate; now injection H as _ <-.
Qed.

Lemma load_fixed_after d st locs s1 st2 :
  load_laptops repr_other d st = (Ok locs, s1) ->
  cache st2 = cache s1 ->
  load_laptops repr_other d st2 = (Ok locs, st2).
Proof.
  intros H Hc.
  destruct (load_laptops_cases repr_other d st) as
    [ Hd | f Hf Hh | f Hf Hh Hc' | f v Hf Hh Hc' Hv
    | f data e Hf Hh Hc' Hb | f data built Hf Hh Hc' Hb];
    try discriminate; injection H as <- <-; subst d; unfold load_laptops.
  - now rewrite Hc, Hh.
  - cbn [cache] in Hc. unfold alloc in *. cbn [fst snd] in *.
    destruct (sort_by_price built) as [|r rs] eqn:Es.
    + cbn [List.length seq] in *.
      rewrite cache_hit_empty by now rewrite Hc.
      rewrite Hc', Hb, Es. cbn [List.length seq]. rewrite app_nil_r.
      destruct st2 as [h2 c2]. cbn [cache store] in *. now rewrite Hc.
    + unfold cache_hit. rewrite Hc. cbn [mtime items List.length seq].
      now rewrite Z.eqb_refl.
Qed.

(** X21. After the listing route every record it lists has the key
    "pic_urls": a non-empty list of non-empty URLs, each beginning with
    "http://", "https://" or "/"; one URL, the placeholder, for a record
    without pictures, and otherwise the resolved pictures of the record,
    one for each. *)
Theorem listing_pic_urls d min_price max_price min max q st listed emin emax st' :
  reachable repr_other st ->
  home repr_other d min_price max_price min max q st = (Ok (Listing listed emin emax), st') ->
  Forall (fun x => pic_urls_set (get (store st') x)) listed.
Proof.
  intros Hr Hs.
  destruct (@serve_Ok_load repr_other d (GetHome min_price max_price min max q) _ _ _ Hs)
    as (locs & s1 & Hl).
  destruct (catalogue_after_load _ Hr Hl) as (_ & _ & Hsh & Hv & _).
  rewrite (@home_listing repr_other _ _ _ _ _ _ _ _ _ Hl) in Hs.
  cbv zeta in Hs. injection Hs as <- _ _ <-. cbn [store].
  apply Forall_forall. intros x Hx. unfold pic_urls_set. rewrite get_set_pic_urls.
  assert (Hin : In x locs) by (eapply filter_laptops_incl; exact Hx).
  assert (E1 : existsb (Nat.eqb x) (filter_laptops (store s1) locs
                 (normalize_range_value (first_some min min_price))
                 (normalize_range_value (first_some max max_price)) q) = true).
  { apply existsb_exists. exists x. split; [exact Hx | apply Nat.eqb_refl]. }
  assert (E2 : (x <? List.length (store s1))%nat = true).
  { apply Nat.ltb_lt. rewrite Forall_forall in Hv. now apply Hv. }
  rewrite E1, E2. cbn [andb].
  assert (S : record_shaped (get (store s1) x)).
  { rewrite Forall_forall in Hsh. apply Hsh. now apply in_map. }
  destruct S as (_ & _ & _ & Hp & _).
  destruct (with_pic_urls_shown _ Hp) as (urls & U1 & U2 & U3 & U4 & U5).
  exists urls. change (pics (with_pic_urls (get (store s1) x))) with (pics (get (store s1) x)).
  split; [exact U1|]. split; [exact U2|]. split; [exact U3|]. split; [exact U4|].
  split; [|exact U5].
  intros E. unfold with_pic_urls in U1. cbn [pic_urls] in U1. rewrite E in U1.
  cbn [map] in U1. congruence.
Qed.

(** X22. The product page answers NotFound exactly when no record of
    the catalogue has the identifier asked for; otherwise it shows the
    record with that identifier, with exactly two pictures, each a
    non-empty URL beginning with "http://", "https://" or "/", the first
    of them the record's first picture resolved; and it leaves the
    state as loading left it. *)
Theorem product_page_found d item_id st locs s1 :
  reachable repr_other st ->
  load_laptops repr_other d st = (Ok locs, s1) ->
  (product_page repr_other d item_id st = (Raise NotFound, s1) <->
   forall x, In x locs -> id (get (store s1) x) <> item_id) /\
  (forall x, In x locs -> id (get (store s1) x) = item_id ->
     exists shown,
       product_page repr_other d item_id st = (Ok (ProductPage x shown), s1) /\
       List.length shown = 2 /\
       Forall shown_url shown /\
       (pics (get (store s1) x) = [] -> shown = [placeholder_900; placeholder_900]) /\
       (forall p ps, pics (get (store s1) x) = p :: ps ->
                     hd_error shown = Some (resolve_pic_url p))).
Proof.
  intros Hr Hl.
  destruct (catalogue_after_load _ Hr Hl) as (_ & Hnd & Hsh & _ & _).
  rewrite map_map in Hnd.
  assert (F : forall x, In x locs -> id (get (store s1) x) = item_id ->
              find (fun y => str_eqb (id (get (store s1) y)) item_id) locs = Some x).
  { intros x Hx <-. exact (@find_unique _ (fun y => id (get (store s1) y)) locs x Hnd Hx). }
  split.
  - unfold product_page. rewrite Hl. split.
    + intros H x Hx E. rewrite (F x Hx E) in H. discriminate.
    + intros H.
      destruct (find (fun y => str_eqb (id (get (store s1) y)) item_id) locs) as [y|] eqn:Fy;
        [|reflexivity].
      apply find_some in Fy. destruct Fy as [Hy E]. apply str_eqb_eq in E.
      now destruct (H y Hy).
  - intros x Hx E. unfold product_page. rewrite Hl, (F x Hx E).
    assert (S : record_shaped (get (store s1) x)).
    { rewrite Forall_forall in Hsh. apply Hsh. now apply in_map. }
    destruct S as (_ & _ & _ & Hp & _).
    destruct (pics (get (store s1) x)) as [|p [|p' ps]]; cbn [map firstn].
    + exists [placeholder_900; placeholder_900].
      split; [reflexivity|]. split; [reflexivity|].
      split; [|split; [reflexivity | discriminate]].
      repeat constructor; discriminate.
    + inversion Hp as [|? ? Hp1 _]; subst. apply clean_ref_resolved in Hp1.
      exists [resolve_pic_url p; resolve_pic_url p].
      split; [reflexivity|]. split; [reflexivity|].
      split; [repeat constructor; apply Hp1|].
      split; [discriminate|]. intros p0 ps0 E0. now injection E0 as <- _.
    + inversion Hp as [|? ? Hp1 Hp']; subst. inversion Hp' as [|? ? Hp2 _]; subst.
      apply clean_ref_resolved in Hp1. apply clean_ref_resolved in Hp2.
      exists [resolve_pic_url p; resolve_pic_url p'].
      split; [reflexivity|]. split; [reflexivity|].
      split; [repeat constructor; first [apply Hp1 | apply Hp2]|].
      split; [discriminate|]. intros p0 ps0 E0. now injection E0 as <- _.
Qed.

(** X23. Every record the listing route lists has a product page: asked
    right after the listing, against the same file, for the identifier
    of a listed record, the product page shows that very record. *)
Theorem listed_item_has_page d min_price max_price min max q st listed emin emax st' x :
  reachable repr_other st ->
  home repr_other d min_price max_price min max q st = (Ok (Listing listed emin emax), st') ->
  In x listed ->
  exists shown,
    product_page repr_other d (id (get (store st') x)) st' = (Ok (ProductPage x shown), st').
Proof.
  intros Hr Hs Hx.
  assert (Hr' : reachable repr_other st').
  { pose proof (reach_serve d (GetHome min_price max_price min max q) Hr) as R.
    cbn [serve] in R. now rewrite Hs in R. }
  destruct (@serve_Ok_load repr_other d (GetHome min_price max_price min max q) _ _ _ Hs)
    as (locs & s1 & Hl).
  assert (Hin : In x locs).
  { rewrite (@home_listing repr_other _ _ _ _ _ _ _ _ _ Hl) in Hs.
    cbv zeta in Hs. injection Hs as <- _ _ _. eapply filter_laptops_incl; exact Hx. }
  assert (Hc : cache st' = cache s1).
  { rewrite (@home_listing repr_other _ _ _ _ _ _ _ _ _ Hl) in Hs.
    cbv zeta in Hs. injection Hs as _ _ _ <-. reflexivity. }
  pose proof (@load_fixed_after d st locs s1 st' Hl Hc) as Hl'.
  destruct (catalogue_after_load _ Hr' Hl') as (_ & Hnd & _).
  rewrite map_map in Hnd.
  unfold product_page. rewrite Hl'.
  rewrite (@find_unique _ (fun y => id (get (store st') y)) locs x Hnd Hin).
  eexists. reflexivity.
Qed.

Lemma set_pic_urls_twice l h :
  fold_left set_pic_urls l (fold_left set_pic_urls l h) = fold_left set_pic_urls l h.
Proof.
  apply heap_ext; [now rewrite !length_set_pic_urls|].
  intros x. rewrite !get_set_pic_urls, length_set_pic_urls.
  destruct (existsb (Nat.eqb x) l && (x <? List.length h)%nat); [|reflexivity].
  apply with_pic_urls_idem.
Qed.

Lemma filter_laptops_core h h' locs min_price max_price q :
  (forall x, core (get h' x) = core (get h x)) ->
  filter_laptops h' locs min_price max_price q = filter_laptops h locs min_price max_price q.
Proof.
  intros H. rewrite !filter_laptops_keeps. apply filter_ext.
  intros x. apply keeps_core, H.
Qed.

(** X24. Repeating a request against the same file gives the same
    answer and leaves the state as the first request left it. *)
Theorem serve_idempotent d r st :
  serve repr_other d r (snd (serve repr_other d r st)) = serve repr_other d r st.
Proof.
  destruct (load_laptops repr_other d st) as [[locs|e] s1] eqn:Hl.
  - destruct r as [min_price max_price min max q | item_id | min_price max_price q];
      cbn [serve].
    + rewrite (@home_listing repr_other _ _ _ _ _ _ _ _ _ Hl). cbv zeta. cbn [snd].
      set (emin := normalize_range_value (first_some min min_price)).
      set (emax := normalize_range_value (first_some max max_price)).
      set (listed := filter_laptops (store s1) locs emin emax q).
      set (st' := {| store := fold_left set_pic_urls listed (store s1); cache := cache s1 |}).
      assert (Hl' : load_laptops repr_other d st' = (Ok locs, st'))
        by (apply (@load_fixed_after d st locs s1 st' Hl); reflexivity).
      rewrite (@home_listing repr_other _ _ _ _ _ _ _ _ _ Hl'). cbv zeta.
      fold emin emax.
      assert (E : filter_laptops (store st') locs emin emax q = listed).
      { apply filter_laptops_core. intros x. unfold st'; cbn [store].
        rewrite get_set_pic_urls.
        destruct (_ && _); [apply core_with_pic_urls | reflexivity]. }
      rewrite E. unfold st' at 1 2. cbn [store cache].
      now rewrite set_pic_urls_twice.
    + assert (E : snd (product_page repr_other d item_id st) = s1).
      { unfold product_page. rewrite Hl. now destruct (find _ locs). }
      rewrite E.
      assert (Hl' : load_laptops repr_other d s1 = (Ok locs, s1))
        by (apply (@load_fixed_after d st locs s1 s1 Hl); reflexivity).
      unfold product_page. now rewrite Hl, Hl'.
    + rewrite (@api_laptops_listing repr_other _ _ _ _ _ _ _ Hl). cbv zeta. cbn [snd].
      assert (Hl' : load_laptops repr_other d s1 = (Ok locs, s1))
        by (apply (@load_fixed_after d st locs s1 s1 Hl); reflexivity).
      now rewrite (@api_laptops_listing repr_other _ _ _ _ _ _ _ Hl').
  - pose proof (load_raise_state _ _ Hl) as ->.
    destruct r; cbn [serve]; unfold home, product_page, api_laptops;
      rewrite Hl; cbn [snd]; now rewrite Hl.
Qed.

End Pages.

(** ** The further properties on the sample file *)

Lemma sample_listing :
  home repr_blank (Some sample_file) (Some 50000%Z) None None None None sample_state
  = (Ok (Listing [1; 2; 3; 4] (Some 50000%Z) None), sample_listed).
Proof. vm_compute. reflexivity. Defined.

Lemma normalize_pics_single_witness :
  normalize_pics repr_blank (JStr " a.jpg ")
  = normalize_pics repr_blank (JList [JStr " a.jpg "]).
Proof.
  apply (@normalize_pics_single repr_blank (JStr " a.jpg "));
    [discriminate | intros l; discriminate].
Defined.

Lemma parse_price_kept_witness :
  parse_price repr_blank (JStr "Rs 45,000") = parse_price repr_blank (JStr "-45000 PKR").
Proof. apply (@parse_price_kept repr_blank "Rs 45,000" "-45000 PKR"). reflexivity. Defined.

Lemma parse_price_integer_text_witness :
  parse_price repr_blank (JStr "Rs 45,000") = Ok 45000%Z.
Proof.
  apply (@parse_price_integer_text repr_blank "Rs 45,000").
  - discriminate.
  - reflexivity.
  - vm_compute. reflexivity.
Defined.

Lemma parse_price_of_str_witness :
  parse_price repr_blank (JStr (py_str repr_blank (JInt (-45000)))) = Ok 45000%Z.
Proof. apply (@parse_price_of_str repr_blank (-45000)%Z). vm_compute. reflexivity. Defined.

Lemma filter_laptops_empty_range_witness :
  filter_laptops (store sample_state) [0; 1; 2; 3; 4] (Some 90000%Z) (Some 60000%Z) None = [].
Proof. apply filter_laptops_empty_range. lia. Defined.

Lemma filter_laptops_query_witness :
  filter_laptops (store sample_state) [0; 1; 2; 3; 4] None None (Some (" HP " : str))
  = filter_laptops (store sample_state) [0; 1; 2; 3; 4] None None (Some ("hp" : str)).
Proof.
  apply (proj1 (@filter_laptops_query (store sample_state) [0; 1; 2; 3; 4] None None
                  " HP " "hp")).
  reflexivity.
Defined.

Lemma normalize_range_value_range_witness :
  (50 <= 50000)%Z /\
  normalize_range_value (normalize_range_value (Some 50%Z)) = normalize_range_value (Some 50%Z).
Proof.
  destruct (normalize_range_value_range (Some 50%Z)) as (_ & H2 & H3).
  split; [apply (H2 50%Z 50000%Z); [reflexivity | reflexivity | lia] | exact H3].
Defined.

Lemma shorthand_empties_range_witness :
  fst (home repr_blank (Some sample_file) None None (Some 50%Z) (Some 20000%Z) None initial)
  = Ok (Listing [] (Some 50000%Z) (Some 20000%Z)).
Proof.
  refine (proj1 (@shorthand_empties_range repr_blank (Some sample_file) initial _ _
                   50%Z 20000%Z None sample_loaded _ _)); lia.
Defined.

Lemma listing_agrees_with_api_witness :
  exists l,
    fst (home repr_blank (Some sample_file) (Some 0%Z) (Some 50000%Z) None None None initial)
    = Ok (Listing l None (Some 50000%Z)) /\
    fst (api_laptops repr_blank (Some sample_file) (Some 0%Z) (Some 50000%Z) None initial)
    = Ok (ApiLaptops (List.length l) l).
Proof.
  apply (@listing_agrees_with_api repr_blank (Some sample_file) initial _ _
           (Some 0%Z) (Some 50000%Z) None sample_loaded).
  - unfold plain_bound. lia.
  - unfold plain_bound. lia.
Defined.

Lemma empty_catalogue_not_cached_witness :
  cache_hit
    (cache (snd (load_laptops repr_blank
                   (Some {| st_mtime := 1700000000; content := Some (JList []) |}) initial)))
    1700000000 = false.
Proof.
  refine (proj1 (@empty_catalogue_not_cached repr_blank
                   (Some {| st_mtime := 1700000000; content := Some (JList []) |})
                   initial _ _) 1700000000%Z).
  reflexivity.
Defined.

Lemma loaded_records_shaped_witness :
  Forall record_shaped (map (get (store sample_state)) [0; 1; 2; 3; 4]).
Proof.
  exact (@loaded_records_shaped repr_blank initial (Some sample_file) _ _
           (reach_initial repr_blank) sample_loaded).
Defined.

Lemma responses_list_catalogue_witness :
  StronglySorted price_le (map (get (store sample_listed)) [1; 2; 3; 4]) /\
  NoDup (map id (map (get (store sample_listed)) [1; 2; 3; 4])).
Proof.
  destruct (@responses_list_catalogue repr_blank (Some sample_file)
              (GetHome (Some 50000%Z) None None None None) sample_state _ _
              sample_reachable sample_listing) as (_ & H1 & H2 & _).
  exact (conj H1 H2).
Defined.

Lemma listing_pic_urls_witness :
  Forall (fun x => pic_urls_set (get (store sample_listed) x)) [1; 2; 3; 4].
Proof.
  exact (@listing_pic_urls repr_blank (Some sample_file) (Some 50000%Z) None None None None
           sample_state _ _ _ _ sample_reachable sample_listing).
Defined.

Lemma product_page_found_witness :
  product_page repr_blank (Some sample_file) "dell-xps-13" initial
  = (Raise NotFound, sample_state) /\
  exists shown,
    product_page repr_blank (Some sample_file) "dell-xps-13-1" initial
    = (Ok (ProductPage 4 shown), sample_state) /\
    List.length shown = 2.
Proof.
  split.
  - apply (proj1 (@product_page_found repr_blank (Some sample_file) "dell-xps-13" initial
                    _ _ (reach_initial repr_blank) sample_loaded)).
    intros x [<- | [<- | [<- | [<- | [<- | []]]]]]; vm_compute; discriminate.
  - destruct (proj2 (@product_page_found repr_blank (Some sample_file) "dell-xps-13-1" initial
                       _ _ (reach_initial repr_blank) sample_loaded) 4)
      as (shown & H1 & H2 & _).
    + simpl. tauto.
    + vm_compute. reflexivity.
    + exists shown. split; [exact H1 | exact H2].
Defined.

Lemma listed_item_has_page_witness :
  exists shown,
    product_page repr_blank (Some sample_file) (id (get (store sample_listed) 1)) sample_listed
    = (Ok (ProductPage 1 shown), sample_listed).
Proof.
  apply (@listed_item_has_page repr_blank (Some sample_file) (Some 50000%Z) None None None None
           sample_state [1; 2; 3; 4] _ _ sample_listed 1 sample_reachable sample_listing).
  left. reflexivity.
Defined.
